(** * GitInspect: the analysis service, the metadata client and the controller

    A shallow embedding of [services/AIService.js], [services/GitHubService.js]
    and [controllers/repoController.js], and the properties of the
    orchestration layer: extraction of the diagram, the summary and the
    recommendations from the model's text, retry with linear backoff, and the
    fallback results.

    Text is a [string] of 8-bit characters, read as the UTF-8 encoding of the
    JavaScript string. Splitting on a line feed, searching for an ASCII
    literal and comparing ASCII letters without case give the same result on
    the encoding as on the UTF-16 code units. The white space of [trim] and
    the line terminators excluded by [.] are the ASCII ones; a text with
    U+00A0, U+2028 and the like is outside the model. *)

From Stdlib Require Import String Ascii List ZArith Lia Bool Arith.
From Stdlib Require Import Numbers.DecimalString.
Import ListNotations.

Local Open Scope string_scope.
Local Open Scope list_scope.

(* ================================================================== *)
(** * Strings as JavaScript uses them *)
(* ================================================================== *)

Module Str.

Definition LF : ascii := "010"%char.
Definition CR : ascii := "013"%char.
Definition DQ : ascii := "034"%char.

(** The double quote as a one-character string, for HTML attributes. *)
Definition dq : string := String DQ EmptyString.
Definition nl : string := String LF EmptyString.

(** White space removed by [String.prototype.trim] (ASCII part). *)
Definition is_ws (c : ascii) : bool :=
  match c with
  | "009"%char | "010"%char | "011"%char | "012"%char | "013"%char
  | " "%char => true
  | _ => false
  end.

(** Line terminators, which [.] does not match. *)
Definition is_line_terminator (c : ascii) : bool :=
  match c with
  | "010"%char | "013"%char => true
  | _ => false
  end.

(** Canonicalisation of a character under the [i] flag: ASCII letters are
    compared in upper case, every other character is compared as it is. *)
Definition upcase (c : ascii) : ascii :=
  let n := nat_of_ascii c in
  if (97 <=? n)%nat && (n <=? 122)%nat then ascii_of_nat (n - 32) else c.

Definition char_eq (ignoreCase : bool) (a b : ascii) : bool :=
  if ignoreCase then Ascii.eqb (upcase a) (upcase b) else Ascii.eqb a b.

Fixpoint drop (n : nat) (s : string) : string :=
  match n, s with
  | O, _ => s
  | S n', String _ s' => drop n' s'
  | S _, EmptyString => EmptyString
  end.

Fixpoint take (n : nat) (s : string) : string :=
  match n, s with
  | O, _ => EmptyString
  | S n', String c s' => String c (take n' s')
  | S _, EmptyString => EmptyString
  end.

(** [strip_prefix ic p s]: the rest of [s] after the literal [p], when [s]
    starts with [p] (up to the case of ASCII letters when [ic] is set). *)
Fixpoint strip_prefix (ic : bool) (p s : string) : option string :=
  match p with
  | EmptyString => Some s
  | String a p' =>
      match s with
      | String b s' => if char_eq ic a b then strip_prefix ic p' s' else None
      | EmptyString => None
      end
  end.

Fixpoint trimStart (s : string) : string :=
  match s with
  | EmptyString => EmptyString
  | String c s' => if is_ws c then trimStart s' else s
  end.

Fixpoint trimEnd (s : string) : string :=
  match s with
  | EmptyString => EmptyString
  | String c s' =>
      match trimEnd s' with
      | EmptyString => if is_ws c then EmptyString else String c EmptyString
      | t => String c t
      end
  end.

(** [s.trim()] *)
Definition trim (s : string) : string := trimEnd (trimStart s).

(** [s.split(sep)] for a separator of one character: never empty, the
    pieces between the separators, in order. *)
Fixpoint split (sep : ascii) (s : string) : list string :=
  match s with
  | EmptyString => [EmptyString]
  | String c s' =>
      if Ascii.eqb c sep then EmptyString :: split sep s'
      else match split sep s' with
           | h :: t => String c h :: t
           | [] => [String c EmptyString]
           end
  end.

(** Truthiness of a string value: the empty string is falsy. *)
Definition truthy (s : string) : bool :=
  match s with EmptyString => false | _ => true end.

(** [xs.slice(0, n)] *)
Definition slice0 {A : Type} (n : nat) (xs : list A) : list A := firstn n xs.

End Str.

(* ================================================================== *)
(** * A backtracking matcher for the regular expressions of the service *)
(* ================================================================== *)

(** The fragment of ECMAScript regular expressions that the service uses:
  literals, the classes [[\s\S]], [.] and [[^c]] under a greedy or a lazy
  star, the greedy [?], one capturing group, a positive lookahead,
  alternation, the anchors [^] and [$] (no [m] flag) and the [i] flag.
  The matcher is the backtracking one of the language: a pattern is run
  against a continuation, and the first way to succeed wins. *)
Module Regex.
Import Str.

Inductive cclass : Type :=
| AnyChar                 (* [\s\S] *)
| Dot                     (* .      *)
| NotChar (c : ascii).    (* [^c]   *)

Definition in_class (cl : cclass) (c : ascii) : bool :=
  match cl with
  | AnyChar => true
  | Dot => negb (is_line_terminator c)
  | NotChar x => negb (Ascii.eqb c x)
  end.

Inductive regex : Type :=
| Lit (p : string)          (* the characters of p, in order *)
| Star (cl : cclass)        (* cl*   greedy *)
| StarLazy (cl : cclass)    (* cl*?  lazy   *)
| Opt (r : regex)           (* r?    greedy *)
| Group (r : regex)         (* ( r ) group 1 *)
| Ahead (r : regex)         (* (?= r )      *)
| Alt (r1 r2 : regex)       (* r1 | r2      *)
| Bos                       (* ^            *)
| Eos                       (* $            *)
| Cat (r1 r2 : regex).      (* r1 r2        *)

(** A continuation receives the index reached, the rest of the input and
    the text captured by group 1 so far. *)
Definition Cont (R : Type) : Type := nat -> string -> option string -> option R.

Section Matcher.
Context {R : Type}.

Fixpoint star_greedy (cl : cclass) (i : nat) (s : string)
           (cap : option string) (k : Cont R) : option R :=
    match s with
    | String c s' =>
        if in_class cl c then
          match star_greedy cl (S i) s' cap k with
          | Some r => Some r
          | None => k i s cap
          end
        else k i s cap
    | EmptyString => k i s cap
    end.

Fixpoint star_lazy (cl : cclass) (i : nat) (s : string)
           (cap : option string) (k : Cont R) : option R :=
    match k i s cap with
    | Some r => Some r
    | None =>
        match s with
        | String c s' =>
            if in_class cl c then star_lazy cl (S i) s' cap k else None
        | EmptyString => None
        end
    end.
End Matcher.

Fixpoint run {R : Type} (ic : bool) (r : regex) (i : nat) (s : string)
         (cap : option string) (k : Cont R) : option R :=
  match r with
  | Lit p =>
      match strip_prefix ic p s with
      | Some s' => k (i + String.length p) s' cap
      | None => None
      end
  | Star cl => star_greedy cl i s cap k
  | StarLazy cl => star_lazy cl i s cap k
  | Opt r1 =>
      match run ic r1 i s cap k with
      | Some x => Some x
      | None => k i s cap
      end
  | Group r1 =>
      run ic r1 i s cap (fun i' s' _ => k i' s' (Some (take (i' - i) s)))
  | Ahead r1 =>
      match run ic r1 i s cap (fun _ _ cap' => Some cap') with
      | Some cap' => k i s cap'
      | None => None
      end
  | Alt r1 r2 =>
      match run ic r1 i s cap k with
      | Some x => Some x
      | None => run ic r2 i s cap k
      end
  | Bos => if Nat.eqb i 0 then k i s cap else None
  | Eos => match s with EmptyString => k i s cap | _ => None end
  | Cat r1 r2 => run ic r1 i s cap (fun i' s' cap' => run ic r2 i' s' cap' k)
  end.

(** The array returned by [String.prototype.match] for a pattern without
    the [g] flag: the index, the matched text and group 1. *)
Record MatchResult : Type := mkMatch {
  index : nat;
  whole : string;             (* match[0] *)
  group1 : option string      (* match[1]; None is undefined *)
}.

(** The matcher is tried at every index from [i] on, the leftmost wins. *)
Fixpoint exec_from (ic : bool) (r : regex) (i : nat) (s : string)
  : option MatchResult :=
  match run ic r i s None (fun e _ cap => Some (e, cap)) with
  | Some (e, cap) => Some (mkMatch i (take (e - i) s) cap)
  | None =>
      match s with
      | String _ s' => exec_from ic r (S i) s'
      | EmptyString => None
      end
  end.

(** [s.match(r)] *)
Definition str_match (ic : bool) (r : regex) (s : string) : option MatchResult :=
  exec_from ic r 0 s.

(** [match[1]] where group 1 takes part in the match, which is the case in
    every match of the patterns of the service. *)
Definition capture1 (m : MatchResult) : string :=
  match group1 m with Some g => g | None => EmptyString end.

(** [s.replace(r, by)] for a pattern without the [g] flag and a
    replacement text without [$] patterns. *)
Definition replace (ic : bool) (r : regex) (by_ : string) (s : string) : string :=
  match str_match ic r s with
  | Some m => take (index m) s ++ by_ ++ drop (index m + String.length (whole m)) s
  | None => s
  end.

End Regex.

(* ================================================================== *)
(** * Errors, effects and the outside world *)
(* ================================================================== *)

Module Effects.

(** A thrown value. [MkError] is [new Error(message)] of the code; a
    [RuntimeError] is raised by the runtime or a library (TypeError,
    AbortError, FetchError, SyntaxError) with the message it chose. *)
Inductive Error : Type :=
| MkError (message : string)
| RuntimeError (name message : string).

Definition message (e : Error) : string :=
  match e with
  | MkError m => m
  | RuntimeError _ m => m
  end.

(** What a computation ends with. [OutOfFuel] is not a behaviour of the
    program: it marks a run of the model cut short by its fuel. *)
Inductive Outcome (A : Type) : Type :=
| Returns (a : A)
| Throws (e : Error)
| OutOfFuel.
Arguments Returns {A} a.
Arguments Throws {A} e.
Arguments OutOfFuel {A}.

(** What the service does to the outside, in order. *)
Inductive Event : Type :=
| EvFetch (url : string) (prompt : string)   (* one POST to the completion API *)
| EvSleep (ms : Z).                          (* one awaited setTimeout *)

Definition is_fetch (e : Event) : bool :=
  match e with EvFetch _ _ => true | EvSleep _ => false end.

Definition fetch_count (tr : list Event) : nat :=
  List.length (filter is_fetch tr).

(** A computation threads the trace of events and may throw. *)
Definition M (A : Type) : Type := list Event -> Outcome A * list Event.

Definition ret {A} (a : A) : M A := fun tr => (Returns a, tr).
Definition throw {A} (e : Error) : M A := fun tr => (Throws e, tr).
Definition diverge {A} : M A := fun tr => (OutOfFuel, tr).
Definition emit (e : Event) : M unit := fun tr => (Returns tt, tr ++ [e]).

Definition bind {A B} (m : M A) (f : A -> M B) : M B :=
  fun tr =>
    match m tr with
    | (Returns a, tr') => f a tr'
    | (Throws e, tr') => (Throws e, tr')
    | (OutOfFuel, tr') => (OutOfFuel, tr')
    end.

(** [try { body } catch (error) { handler }] *)
Definition try_catch {A} (body : M A) (handler : Error -> M A) : M A :=
  fun tr =>
    match body tr with
    | (Throws e, tr') => handler e tr'
    | r => r
    end.

Definition lift {A} (o : Outcome A) : M A := fun tr => (o, tr).

Declare Scope js_scope.
Delimit Scope js_scope with js.
Notation "x <- m ;; k" := (bind m (fun x => k))
  (at level 61, m at next level, right associativity) : js_scope.
Notation "m ;; k" := (bind m (fun _ => k))
  (at level 61, right associativity) : js_scope.

End Effects.

(* ================================================================== *)
(** * services/AIService.js *)
(* ================================================================== *)

Module AIService.
Import Str Regex Effects.
Local Open Scope js_scope.

(** ** Configuration and inputs *)

(** [this.config], without the temperature, a float that is only copied
    into the request body. [maxRetries], [retryDelay] and [timeout] are
    taken as the numbers they denote. *)
Record Config : Type := mkConfig {
  url : string;
  model : string;
  maxRetries : nat;
  retryDelay : Z;
  timeout : Z
}.

Definition DEFAULT_CONFIG : Config :=
  {| url := "https://api.deepseek.com/v1/chat/completions";
     model := "deepseek-chat";
     maxRetries := 3;
     retryDelay := 1000;
     timeout := 15000 |}.

Record Service : Type := mkService {
  apiKey : option string;     (* process.env.DEEPSEEK_API_KEY; None is undefined *)
  config : Config
}.

(** The four properties of [repoInfo] that the prompt reads; [None] is an
    absent, null or undefined property. *)
Record RepoObject : Type := mkRepoObject {
  name : option string;
  description : option string;
  language : option string;
  html_url : option string
}.

(** The value passed as [repoInfo]. *)
Inductive JsValue : Type :=
| JsUndefined
| JsNull
| JsBoolean (b : bool)
| JsNumber (n : Z)
| JsString (s : string)
| JsObject (o : RepoObject).

Definition js_truthy (v : JsValue) : bool :=
  match v with
  | JsUndefined | JsNull => false
  | JsBoolean b => b
  | JsNumber n => negb (Z.eqb n 0)
  | JsString s => truthy s
  | JsObject _ => true
  end.

Definition typeof_is_object (v : JsValue) : bool :=
  match v with
  | JsNull | JsObject _ => true
  | _ => false
  end.

(** ** The completion API as the service sees it *)

(** [data.choices?.[0]?.message?.content] of the response body. *)
Inductive Content : Type :=
| ContentAbsent                       (* undefined or null somewhere on the path *)
| ContentStr (s : string)
| ContentOther (truthy : bool).       (* a number, a boolean, an object, an array *)

Record Message : Type := mkMessage { content : Content }.
Record Choice : Type := mkChoice { message_of : option Message }.

(** A parsed body that is an object or an array. [None] is a [choices]
    that is absent or null. *)
Record CompletionObject : Type := mkData { choices : option (list Choice) }.

(** The value that [response.json()] resolves with. Reading a property of
    [null] throws; reading one of a number, a string or a boolean gives
    undefined. *)
Inductive CompletionData : Type :=
| DataNull
| DataPrimitive
| DataObject (o : CompletionObject).

Inductive Body : Type :=
| BodyInvalid (msg : string)          (* response.json() rejects *)
| BodyJson (data : CompletionData).

Inductive NetResult : Type :=
| NetFail (msg : string)                              (* fetch rejects: transport error *)
| NetResponse (ok : bool) (status : N) (body : Body). (* fetch resolves *)

(** The [n]-th call of [fetch] settles after [latency] milliseconds with
    [result], unless the abort timer of the attempt fires first. *)
Record Reply : Type := mkReply { latency : Z; result : NetResult }.

Definition World : Type := nat -> Reply.

(** ** Validation *)

Definition validateApiKey (svc : Service) : M unit :=
  match apiKey svc with
  | Some k => if truthy k then ret tt
              else throw (MkError "DeepSeek API key not configured")
  | None => throw (MkError "DeepSeek API key not configured")
  end.

(** Returns the object that passed the test, for the steps that follow. *)
Definition validateRepoInfo (repoInfo : JsValue) : M RepoObject :=
  if negb (js_truthy repoInfo) || negb (typeof_is_object repoInfo)
  then throw (MkError "Invalid repository information")
  else match repoInfo with
       | JsObject o => ret o
       | _ => throw (MkError "Invalid repository information")
       end.

(** ** The prompt *)

(** [value || fallback] on an optional string. *)
Definition or_default (value : option string) (fallback : string) : string :=
  match value with
  | Some s => if truthy s then s else fallback
  | None => fallback
  end.

Definition formatRepoMetadata (repoInfo : RepoObject) : string :=
  "Nom: " ++ or_default (name repoInfo) "Non spécifié" ++ "
Description: " ++ or_default (description repoInfo) "Aucune description" ++ "
Langage principal: " ++ or_default (language repoInfo) "Inconnu" ++ "
URL: " ++ or_default (html_url repoInfo) "Non disponible".

Definition getArchitectureRequirements : string :=
  "## 🔍 Analyse structurelle
- Détecte les composants principaux (controllers, services, etc.)
- Identifie les flux de données entre modules
- Analyse les dépendances critiques

## 🎨 Diagramme visuel
- Structure en 3-5 couches logiques
- Conteneurs stylisés avec bordures arrondies
- Flèches directionnelles CSS
- Icônes SVG pour les types de fichiers
- Palette de couleurs cohérente

## 📝 Résumé technique
- 5-7 points clés maximum
- Technologies principales
- Architecture globale
- Points d'entrée".

Definition getResponseFormat : string :=
  "```html
<div class=" ++ dq ++ "architecture-diagram" ++ dq ++ ">
  <!-- Diagramme HTML/CSS ici -->
</div>
```

```text
// Résumé technique ici
```".

Definition buildAnalysisPrompt (repoInfo : RepoObject) : string :=
  "Tu es un architecte logiciel expert.

Analyse le dépôt GitHub suivant et génère :
1. Un résumé technique concis
2. Un diagramme d'architecture HTML/CSS détaillé

--- INFORMATIONS DU DÉPÔT ---
" ++ formatRepoMetadata repoInfo ++ "

--- EXIGENCES ---
" ++ getArchitectureRequirements ++ "

--- FORMAT REQUIS ---
" ++ getResponseFormat.

(** ** Extraction from the model's text *)

(** [/```html([\s\S]*?)```/] *)
Definition htmlRegex : regex :=
  Cat (Lit "```html") (Cat (Group (StarLazy AnyChar)) (Lit "```")).

(** [/<div[^>]*class="architecture-diagram"[^>]*>([\s\S]*?)<\/div>/] *)
Definition divRegex : regex :=
  Cat (Lit "<div")
 (Cat (Star (NotChar ">"))
 (Cat (Lit ("class=" ++ dq ++ "architecture-diagram" ++ dq))
 (Cat (Star (NotChar ">"))
 (Cat (Lit ">")
 (Cat (Group (StarLazy AnyChar))
      (Lit "</div>")))))).

(** [/```text([\s\S]*?)```/] *)
Definition textRegex : regex :=
  Cat (Lit "```text") (Cat (Group (StarLazy AnyChar)) (Lit "```")).

(** [/Recommandations?.*([\s\S]*?)(?=\n\n|$)/i] *)
Definition recsRegex : regex :=
  Cat (Lit "Recommandation")
 (Cat (Opt (Lit "s"))
 (Cat (Star Dot)
 (Cat (Group (StarLazy AnyChar))
      (Ahead (Alt (Lit (nl ++ nl)) Eos))))).

(** [/^- /] *)
Definition markerRegex : regex := Cat Bos (Lit "- ").

Definition extractHtmlContent (content : string) : option string :=
  let htmlMatch := str_match false htmlRegex content in
  match htmlMatch with
  | None =>
      let fallbackMatch := str_match false divRegex content in
      match fallbackMatch with
      | Some m => Some (whole m)
      | None => None
      end
  | Some m => Some (trim (capture1 m))
  end.

Definition extractTextSummary (content : string) : string :=
  match str_match false textRegex content with
  | Some m => trim (capture1 m)
  | None =>
      let first := hd EmptyString (split LF content) in
      if truthy first then first else "Technical summary"
  end.

Definition getDefaultRecommendations : list string :=
  [ "Documentation: Ajouter des commentaires pour les fonctions principales";
    "Tests: Implémenter des tests unitaires pour les modules critiques";
    "Optimisation: Analyser les performances des composants clés" ].

Definition extractRecommendations (content : string) : list string :=
  match str_match true recsRegex content with
  | Some recs =>
      slice0 3
        (map (fun r => trim (replace false markerRegex EmptyString r))
           (filter (fun r => (0 <? String.length (trim r))%nat)
              (split LF (capture1 recs))))
  | None => getDefaultRecommendations
  end.

(** ** Diagram containers *)

Definition generateFallbackDiagram (message : string) : string :=
  "
      <div class=" ++ dq ++ "diagram-fallback" ++ dq ++ " style=" ++ dq ++ "
        padding: 2rem;
        text-align: center;
        background: rgba(255, 68, 168, 0.05);
        border-radius: 12px;
        border: 1px dashed var(--accent);
        width: 100%;
        box-sizing: border-box;
      " ++ dq ++ ">
        <svg width=" ++ dq ++ "48" ++ dq ++ " height=" ++ dq ++ "48" ++ dq
    ++ " viewBox=" ++ dq ++ "0 0 24 24" ++ dq ++ " fill=" ++ dq ++ "none" ++ dq
    ++ " stroke=" ++ dq ++ "var(--accent)" ++ dq
    ++ " stroke-width=" ++ dq ++ "2" ++ dq ++ ">
          <path d=" ++ dq
    ++ "M10.29 3.86L1.82 18a2 2 0 0 0 1.71 3h16.94a2 2 0 0 0 1.71-3L13.71 3.86a2 2 0 0 0-3.42 0z"
    ++ dq ++ "></path>
          <line x1=" ++ dq ++ "12" ++ dq ++ " y1=" ++ dq ++ "9" ++ dq
    ++ " x2=" ++ dq ++ "12" ++ dq ++ " y2=" ++ dq ++ "13" ++ dq ++ "></line>
          <line x1=" ++ dq ++ "12" ++ dq ++ " y1=" ++ dq ++ "17" ++ dq
    ++ " x2=" ++ dq ++ "12.01" ++ dq ++ " y2=" ++ dq ++ "17" ++ dq ++ "></line>
        </svg>
        <p style=" ++ dq ++ "color: var(--accent); margin-top: 1rem; width: 100%;"
    ++ dq ++ ">" ++ message ++ "</p>
      </div>
    ".

(** [content] is the diagram or null; null and the empty string are falsy. *)
Definition wrapDiagram (content : option string) : string :=
  match content with
  | Some c =>
      if negb (truthy c)
      then generateFallbackDiagram "No architecture diagram generated"
      else "
      <div class=" ++ dq ++ "architecture-diagram" ++ dq ++ " style=" ++ dq ++ "
        font-family: 'Space Grotesk', sans-serif;
        background: rgba(42, 42, 58, 0.8);
        border-radius: 16px;
        padding: 2rem;
        margin: 1rem 0;
        width: 100%;
        box-sizing: border-box;
        border: 1px solid rgba(255, 255, 255, 0.1);
        overflow-x: auto;
      " ++ dq ++ ">
        " ++ c ++ "
      </div>
    "
  | None => generateFallbackDiagram "No architecture diagram generated"
  end.

(** ** Results *)

(** What [parseAIResponse] returns. *)
Record Analysis : Type := mkAnalysis {
  rawContent : string;
  diagram : option string;
  summary_of : string
}.

(** The object handed to the view. [rawAnalysis] is [None] where the
    property is not set. *)
Record AnalysisResult : Type := mkResult {
  summary : string;
  htmlSchema : string;
  recommendations : list string;
  diagramSource : bool;
  rawAnalysis : option string
}.

(** [data.choices?.[0]?.message?.content], for [data] that is not null. *)
Definition first_content (data : CompletionData) : Content :=
  match data with
  | DataObject o =>
      match choices o with
      | Some (c :: _) =>
          match message_of c with
          | Some m => content m
          | None => ContentAbsent
          end
      | _ => ContentAbsent
      end
  | _ => ContentAbsent
  end.

Definition content_truthy (c : Content) : bool :=
  match c with
  | ContentAbsent => false
  | ContentStr s => truthy s
  | ContentOther t => t
  end.

(** [data.choices] is read without [?.]: on [null] the read itself throws,
    before the test, with the message of the engine. *)
Definition parseAIResponse (data : CompletionData) : M Analysis :=
  match data with
  | DataNull =>
      throw (RuntimeError "TypeError"
               "Cannot read properties of null (reading 'choices')")
  | _ =>
      if negb (content_truthy (first_content data))
      then throw (MkError "Invalid AI response format")
      else match first_content data with
           | ContentStr c =>
               ret {| rawContent := c;
                      diagram := extractHtmlContent c;
                      summary_of := extractTextSummary c |}
           | _ =>
               (* content.match(...) on a value that is not a string *)
               throw (RuntimeError "TypeError" "content.match is not a function")
           end
  end.

Definition formatAnalysisResults (analysis : Analysis) : AnalysisResult :=
  {| summary := summary_of analysis;
     htmlSchema := wrapDiagram (diagram analysis);
     recommendations := extractRecommendations (rawContent analysis);
     diagramSource := true;
     rawAnalysis := Some (rawContent analysis) |}.

Definition getFallbackRecommendations : list string :=
  [ "Verify API configuration";
    "Check repository accessibility";
    "Retry analysis later" ].

Definition generateFallbackResponse (error : Error) : AnalysisResult :=
  {| summary := "Analysis failed: " ++ message error;
     htmlSchema := generateFallbackDiagram (message error);
     recommendations := getFallbackRecommendations;
     diagramSource := false;
     rawAnalysis := None |}.

(** ** The completion client *)

Definition show_N (n : N) : string := NilEmpty.string_of_uint (N.to_uint n).

(** One call of [fetch] under the abort timer of the attempt: the call is
    the next one of the world; it rejects when the timer fires before the
    reply, or when the transport fails. *)
Definition fetch (svc : Service) (world : World) (prompt : string)
  : M (bool * N * Body) :=
  fun tr =>
    let reply := world (S (fetch_count tr)) in
    let tr' := tr ++ [EvFetch (url (config svc)) prompt] in
    if (timeout (config svc) <=? latency reply)%Z
    then (Throws (RuntimeError "AbortError" "The user aborted a request."), tr')
    else match result reply with
         | NetFail msg => (Throws (RuntimeError "FetchError" msg), tr')
         | NetResponse ok status body => (Returns (ok, status, body), tr')
         end.

(** [await response.json()] *)
Definition json (body : Body) : M CompletionData :=
  match body with
  | BodyInvalid msg => throw (RuntimeError "FetchError" msg)
  | BodyJson data => ret data
  end.

(** [await new Promise(res => setTimeout(res, ms))] *)
Definition sleep (ms : Z) : M unit := emit (EvSleep ms).

(** [fetchWithRetry(prompt, attempt)]. The recursion of the source is on
    the attempt number; [fuel] bounds its depth in the model. *)
Fixpoint fetchWithRetry (fuel : nat) (svc : Service) (world : World)
         (prompt : string) (attempt : nat) : M Analysis :=
  match fuel with
  | O => diverge
  | S fuel' =>
      try_catch
        (response <- fetch svc world prompt ;;
         let '(ok, status, body) := response in
         if negb ok
         then throw (MkError ("API request failed with status " ++ show_N status))
         else data <- json body ;;
              parseAIResponse data)
        (fun error =>
           if (maxRetries (config svc) <=? attempt)%nat then throw error
           else sleep (retryDelay (config svc) * Z.of_nat attempt) ;;
                fetchWithRetry fuel' svc world prompt (S attempt))
  end.

(** ** The orchestrator *)

(** [analyzeRepository(repoInfo)]; logging is left out. *)
Definition analyzeRepository (fuel : nat) (svc : Service) (world : World)
           (repoInfo : JsValue) : M AnalysisResult :=
  try_catch
    (validateApiKey svc ;;
     o <- validateRepoInfo repoInfo ;;
     let prompt := buildAnalysisPrompt o in
     analysis <- fetchWithRetry fuel svc world prompt 1 ;;
     ret (formatAnalysisResults analysis))
    (fun error => ret (generateFallbackResponse error)).

(** Fuel that covers every run: the recursion is at most [maxRetries] deep. *)
Definition enough_fuel (svc : Service) : nat := S (maxRetries (config svc)).

End AIService.

(* ================================================================== *)
(** * services/GitHubService.js *)
(* ================================================================== *)

Module GitHubService.
Import Str Effects.
Local Open Scope string_scope.

(** The repository object of the upstream API, as far as it is read.
    [None] is an absent or null property. *)
Record Owner : Type := mkOwner { login : string }.
Record License : Type := mkLicense { spdx_id : option string }.

Record RepoData : Type := mkRepoData {
  d_name : string;
  d_owner : option Owner;
  d_description : option string;
  d_html_url : string;
  d_stargazers_count : Z;
  d_forks_count : Z;
  d_open_issues_count : Z;
  d_language : option string;
  d_license : option License;
  d_created_at : string;
  d_updated_at : string;
  d_size : Z;
  d_topics : option (list string)
}.

(** The object returned by [formatRepoData]. *)
Record RepoInfo : Type := mkRepoInfo {
  name : string;
  owner : string;
  description : option string;
  url : string;
  stars : Z;
  forks : Z;
  issues : Z;
  language : option string;
  license : option string;       (* None is undefined *)
  createdAt : string;
  updatedAt : string;
  size : string;
  topics : list string
}.

Definition show_Z (n : Z) : string := NilEmpty.string_of_uint (N.to_uint (Z.to_N n)).

(** [(n / 1024).toFixed(1)] for an integer [n]. The division by a power of
    two is exact in binary floating point, so [toFixed] sees the rational
    [n / 1024]: it takes the integer number of tenths nearest to it, the
    larger one on a tie, after setting the sign aside (quotients below
    10^21 in magnitude). *)
Definition tenths_div1024 (n : Z) : Z := (20 * Z.abs n + 1024) / 2048.

Definition toFixed1_div1024 (n : Z) : string :=
  let t := tenths_div1024 n in
  (if (n <? 0)%Z then "-" else EmptyString)
    ++ show_Z (t / 10) ++ "." ++ show_Z (t mod 10).

(** What [axios.get] settles with: the body of a 2xx response, or an
    error that carries the status of the response when there was one. *)
Inductive AxiosOutcome : Type :=
| AxiosData (data : RepoData)
| AxiosError (status : option Z).

Section Host.
  (** [new Date(iso).toLocaleDateString()]: fixed by the locale and the
      time zone of the host. *)
Variable toLocaleDateString : string -> string.

Definition formatRepoData (data : RepoData) : Outcome RepoInfo :=
    match d_owner data with
    | None =>
        (* data.owner.login on an absent owner *)
        Throws (RuntimeError "TypeError"
                  "Cannot read properties of undefined (reading 'login')")
    | Some o =>
        Returns
          {| name := d_name data;
             owner := login o;
             description := d_description data;
             url := d_html_url data;
             stars := d_stargazers_count data;
             forks := d_forks_count data;
             issues := d_open_issues_count data;
             language := d_language data;
             license := match d_license data with
                        | Some l => spdx_id l
                        | None => None
                        end;
             createdAt := toLocaleDateString (d_created_at data);
             updatedAt := toLocaleDateString (d_updated_at data);
             size := toFixed1_div1024 (d_size data) ++ " MB";
             topics := match d_topics data with
                       | Some t => t
                       | None => []
                       end |}
    end.

Definition handleGitHubError (status : option Z) : Error :=
    match status with
    | Some 404%Z => MkError "Dépôt non trouvé"
    | Some 403%Z => MkError "Limite de requêtes GitHub atteinte"
    | _ => MkError "Erreur de communication avec GitHub"
    end.

  (** [getRepoInfo(repoPath)], given what the upstream answers for each
      path; logging is left out. An error thrown by [formatRepoData] has
      no response and is mapped like a transport error. *)
Definition getRepoInfo (github : string -> AxiosOutcome) (repoPath : string)
    : Outcome RepoInfo :=
    match github ("https://api.github.com/repos/" ++ repoPath) with
    | AxiosData data =>
        match formatRepoData data with
        | Throws _ => Throws (handleGitHubError None)
        | r => r
        end
    | AxiosError status => Throws (handleGitHubError status)
    end.
End Host.

End GitHubService.

(* ================================================================== *)
(** * controllers/repoController.js *)
(* ================================================================== *)

Module RepoController.
Import Str Effects.
Local Open Scope string_scope.
Local Open Scope js_scope.

(** The [analysis] object passed to the view; a property that is not set
    is [None]. *)
Record ViewAnalysis : Type := mkViewAnalysis {
  v_summary : string;
  v_htmlSchema : string;
  v_recommendations : list string;
  v_diagramSource : option bool;
  v_rawAnalysis : option string
}.

(** The locals of [res.render('results', ...)]. *)
Record View : Type := mkView {
  title : string;
  repo_name : string;
  analysis : ViewAnalysis
}.

(** The metadata object as [analyzeRepository] reads it: it has [url] and
    no [html_url]. *)
Definition as_object (r : GitHubService.RepoInfo) : AIService.RepoObject :=
  {| AIService.name := Some (GitHubService.name r);
     AIService.description := GitHubService.description r;
     AIService.language := GitHubService.language r;
     AIService.html_url := None |}.

Section Host.
Variable toLocaleDateString : string -> string.

Definition inspectRepository (fuel : nat) (svc : AIService.Service)
             (world : AIService.World)
             (github : string -> GitHubService.AxiosOutcome)
             (owner repo : string) : M View :=
    try_catch
      (let repoPath := owner ++ "/" ++ repo in
       repoInfo <- lift (GitHubService.getRepoInfo toLocaleDateString github repoPath) ;;
       a <- AIService.analyzeRepository fuel svc world
              (AIService.JsObject (as_object repoInfo)) ;;
       ret {| title := "GitInspect - " ++ GitHubService.name repoInfo;
              repo_name := GitHubService.name repoInfo;
              analysis :=
                {| v_summary := AIService.summary a;
                   v_htmlSchema :=
                     if truthy (AIService.htmlSchema a) then AIService.htmlSchema a
                     else AIService.generateFallbackDiagram "No diagram generated";
                   v_recommendations := AIService.recommendations a;
                   v_diagramSource := Some (AIService.diagramSource a);
                   v_rawAnalysis := AIService.rawAnalysis a |} |})
      (fun error =>
         ret {| title := "Erreur d'analyse";
                repo_name := "Erreur";
                analysis :=
                  {| v_summary := "Une erreur est survenue";
                     v_htmlSchema := AIService.generateFallbackDiagram (message error);
                     v_recommendations :=
                       [ "Actualiser la page";
                         "Vérifier le nom du dépôt";
                         "Contacter le support" ];
                     v_diagramSource := None;
                     v_rawAnalysis := None |} |}).
End Host.

End RepoController.


(* ================================================================== *)
(** * The extraction, in the words of the specification *)
(* ================================================================== *)

(** Searching a text directly, without a pattern: what the specification
    says the three extractions do. The patterns of the service are
    compared with these functions below. *)
Module Spec.
Import Str.
Local Open Scope string_scope.

(** [s] is [pre ++ p ++ post]. *)
Definition splits_at (p pre post s : string) : Prop := s = pre ++ p ++ post.

(** The occurrence of [p] after [pre] is the first one in [s]. *)
Definition first_occurrence (p pre post s : string) : Prop :=
  splits_at p pre post s /\
  forall pre' post', splits_at p pre' post' s -> String.length pre <= String.length pre'.

Definition occurs (p s : string) : Prop := exists pre post, splits_at p pre post s.

(** The first occurrence of [p] in [s], up to the case of ASCII letters
    when [ic] is set: the text before it and the text after it. *)
Fixpoint find (ic : bool) (p s : string) : option (string * string) :=
  match strip_prefix ic p s with
  | Some post => Some (EmptyString, post)
  | None =>
      match s with
      | String c s' =>
          match find ic p s' with
          | Some (pre, post) => Some (String c pre, post)
          | None => None
          end
      | EmptyString => None
      end
  end.

(** The number of characters at the head of [s] that satisfy [f]. *)
Fixpoint span (f : ascii -> bool) (s : string) : nat :=
  match s with
  | String c s' => if f c then S (span f s') else 0
  | EmptyString => 0
  end.

(** The length of the text before the first place where [stop] holds, the
    end of the text being such a place. *)
Fixpoint until (stop : string -> bool) (s : string) : nat :=
  if stop s then 0
  else match s with
       | String _ s' => S (until stop s')
       | EmptyString => 0
       end.

Definition all_chars (f : ascii -> bool) (s : string) : Prop :=
  span f s = String.length s.

Definition fence : string := "```".
Definition html_fence : string := "```html".
Definition text_fence : string := "```text".

(** The interior of the first fenced block opened by [opening]. *)
Definition fenced_block (opening s : string) : option string :=
  match find false opening s with
  | Some (_, rest) =>
      match find false fence rest with
      | Some (inner, _) => Some inner
      | None => None
      end
  | None => None
  end.

(** [inner] is the interior of the first block of [s] opened by [opening]:
    the first opening, and the first closing fence after it. *)
Definition is_fenced_block (opening inner s : string) : Prop :=
  exists pre rest post,
    first_occurrence opening pre rest s /\ first_occurrence fence inner post rest.

(** [s] has a block opened by [opening] and closed by a fence. *)
Definition has_fenced_block (opening s : string) : Prop :=
  exists pre inner post, s = pre ++ opening ++ inner ++ fence ++ post.

Definition marker : string := "class=" ++ dq ++ "architecture-diagram" ++ dq.
Definition not_gt (c : ascii) : bool := negb (Ascii.eqb c ">").

(** [s] starts with the text [e] of a marked [div]: a [div] tag that
    carries the class marker among its attributes, and the text up to and
    including the first closing [div] tag after it, whichever element that
    tag closes. It is the whole element when no [div] is nested in it, and
    a part of it otherwise; see [complete_div_at_head]. *)
Definition marked_div_here (e s : string) : Prop :=
  exists attrs body post,
    s = "<div" ++ attrs ++ ">" ++ body ++ "</div>" ++ post /\
    e = "<div" ++ attrs ++ ">" ++ body ++ "</div>" /\
    all_chars not_gt attrs /\
    occurs marker attrs /\
    first_occurrence "</div>" body post (body ++ "</div>" ++ post).

(** [e] is the first such text of [s]: it starts after [pre], and none
    starts earlier. *)
Definition first_marked_div (e s : string) : Prop :=
  exists pre rest,
    s = pre ++ rest /\ marked_div_here e rest /\
    forall pre' rest' e',
      s = pre' ++ rest' -> marked_div_here e' rest' ->
      String.length pre <= String.length pre'.

Definition has_marked_div (s : string) : Prop :=
  exists pre rest e, s = pre ++ rest /\ marked_div_here e rest.

(** The marked [div] at the head of [s], through the first closing tag,
    when there is one. *)
Definition marked_div_at_head (s : string) : option string :=
  match strip_prefix false "<div" s with
  | Some s1 =>
      let attrs := take (span not_gt s1) s1 in
      match find false marker attrs with
      | Some _ =>
          match strip_prefix false ">" (drop (span not_gt s1) s1) with
          | Some s3 =>
              match find false "</div>" s3 with
              | Some (body, _) => Some ("<div" ++ attrs ++ ">" ++ body ++ "</div>")
              | None => None
              end
          | None => None
          end
      | None => None
      end
  | None => None
  end.

(** The first marked [div] of [s], from the left, through the first
    closing tag. *)
Fixpoint find_marked_div (s : string) : option string :=
  match marked_div_at_head s with
  | Some e => Some e
  | None =>
      match s with
      | String _ s' => find_marked_div s'
      | EmptyString => None
      end
  end.

(** ** The complete element, with the elements nested in it *)

(** Tags are read as the pattern of the service spells them, in lower
    case; comments and quoted attribute values are not told apart from
    markup. *)

(** [s] starts with the opening tag of a [div]. *)
Definition opens_div (s : string) : bool :=
  match strip_prefix false "<div" s with
  | Some (String c _) => is_ws c || Ascii.eqb c ">" || Ascii.eqb c "/"
  | _ => false
  end.

(** [s] starts with the closing tag of a [div]. *)
Definition closes_div (s : string) : bool :=
  match strip_prefix false "</div>" s with
  | Some _ => true
  | None => false
  end.

(** The text of [s] up to and including the closing tag that matches an
    element opened before [s], when [depth] elements opened since are
    still open: every opening tag on the way is closed by a tag of its
    own. *)
Fixpoint through_matching_close (depth : nat) (s : string) : option string :=
  match s with
  | EmptyString => None
  | String c s' =>
      if closes_div s then
        match depth with
        | O => Some "</div>"
        | S d => option_map (String c) (through_matching_close d s')
        end
      else if opens_div s
      then option_map (String c) (through_matching_close (S depth) s')
      else option_map (String c) (through_matching_close depth s')
  end.

(** The complete element at the head of [s]: a [div] tag that carries the
    class marker, through the closing tag that matches it. *)
Definition complete_div_at_head (s : string) : option string :=
  match strip_prefix false "<div" s with
  | Some s1 =>
      let attrs := take (span not_gt s1) s1 in
      match find false marker attrs with
      | Some _ =>
          match strip_prefix false ">" (drop (span not_gt s1) s1) with
          | Some s3 =>
              match through_matching_close 0 s3 with
              | Some inner => Some ("<div" ++ attrs ++ ">" ++ inner)
              | None => None
              end
          | None => None
          end
      | None => None
      end
  | None => None
  end.

(** The first complete element of [s] that carries the class marker. *)
Fixpoint find_complete_div (s : string) : option string :=
  match complete_div_at_head s with
  | Some e => Some e
  | None =>
      match s with
      | String _ s' => find_complete_div s'
      | EmptyString => None
      end
  end.

(** The word of the recommendations heading, as the pattern spells it. *)
Definition heading_word : string := "Recommandation".

(** [h] is [p] up to the case of ASCII letters. *)
Definition same_letters (p h : string) : Prop :=
  strip_prefix true p h = Some EmptyString.

(** [s] has the heading word, in any case, after [pre]; nowhere before. *)
Definition first_heading (pre h after s : string) : Prop :=
  s = pre ++ h ++ after /\ same_letters heading_word h /\
  forall pre' h' after',
    s = pre' ++ h' ++ after' -> same_letters heading_word h' ->
    String.length pre <= String.length pre'.

Definition has_heading (s : string) : Prop :=
  exists pre h after, s = pre ++ h ++ after /\ same_letters heading_word h.

Definition not_terminator (c : ascii) : bool := negb (is_line_terminator c).

(** [after] is the rest [line] of the heading line, then [below]. *)
Definition heading_line (line below after : string) : Prop :=
  after = line ++ below /\ all_chars not_terminator line /\
  match below with
  | String c _ => is_line_terminator c = true
  | EmptyString => True
  end.

Definition blank_line : string := nl ++ nl.

(** The place where the run of the recommendations ends: a blank line
    starts here, or the text ends here. *)
Definition at_blank_or_end (s : string) : bool :=
  match strip_prefix true blank_line s with
  | Some _ => true
  | None => match s with EmptyString => true | _ => false end
  end.

(** [run] is [below] up to its first blank line, or all of it. *)
Definition run_of (run below : string) : Prop :=
  (exists post, first_occurrence blank_line run post below) \/
  (run = below /\ ~ occurs blank_line below).

(** The text after the heading line, up to a blank line or the end. *)
Definition heading_run (content : string) : option string :=
  match find true heading_word content with
  | Some (_, after) =>
      let below := drop (span not_terminator after) after in
      match find false blank_line below with
      | Some (run, _) => Some run
      | None => Some below
      end
  | None => None
  end.

(** The text before the first line feed, or all of the text. *)
Definition first_line (s : string) : string :=
  match find false nl s with
  | Some (line, _) => line
  | None => s
  end.

(** A line without its leading marker. *)
Definition strip_marker (r : string) : string :=
  match strip_prefix false "- " r with
  | Some r' => r'
  | None => r
  end.

Definition non_blank (r : string) : bool := (0 <? String.length (trim r))%nat.

(** Lines, the blank ones dropped, the marker stripped, at most three. *)
Definition recommendations_of_run (run : string) : list string :=
  firstn 3 (map (fun r => trim (strip_marker r)) (filter non_blank (split LF run))).

End Spec.


(* ================================================================== *)
(** * Parts of the patterns *)
(* ================================================================== *)

Module Patterns.
Import Str Regex Spec.
Local Open Scope string_scope.

(** The pattern of a fenced block: [htmlRegex] and [textRegex] are its
    instances at the two openings. *)
Definition fence_pattern (opening : string) : regex :=
  Cat (Lit opening) (Cat (Group (StarLazy AnyChar)) (Lit fence)).

(** [divRegex] after its first [[^>]*]. *)
Definition div_tail : regex :=
  Cat (Lit marker)
    (Cat (Star (NotChar ">"))
       (Cat (Lit ">") (Cat (Group (StarLazy AnyChar)) (Lit "</div>")))).

(** Where a match of [divRegex] ends and what it captures, when the text
    [s1] after [<div], at index [i], has a closed tag and a closing tag. *)
Definition div_tag_end (i : nat) (s1 : string) : option (nat * option string) :=
  match strip_prefix false ">" (drop (span not_gt s1) s1) with
  | Some s3 =>
      match find false "</div>" s3 with
      | Some (body, _) =>
          Some (i + span not_gt s1 + 1 + String.length body + 6, Some body)
      | None => None
      end
  | None => None
  end.

(** The continuation at the end of a pattern: the index reached and the
    capture. *)
Definition final : Cont (nat * option string) := fun e _ cap => Some (e, cap).

End Patterns.

(* ================================================================== *)
(** * The completion client, attempt by attempt *)
(* ================================================================== *)

(** What one attempt comes to, and the trace of a run in which every
    attempt fails: the words of the specification about the client. *)
Module ClientSpec.
Import Str Effects AIService.
Local Open Scope string_scope.

(** What [parseAIResponse] ends with; it does nothing to the outside. *)
Definition parse_outcome (data : CompletionData) : Outcome Analysis :=
  fst (parseAIResponse data []).

(** What an attempt ends with when the call of [fetch] is answered by
    [reply]: the result of the [try] block of [fetchWithRetry]. *)
Definition settle (svc : Service) (reply : Reply) : Outcome Analysis :=
  if (timeout (config svc) <=? latency reply)%Z
  then Throws (RuntimeError "AbortError" "The user aborted a request.")
  else match result reply with
       | NetFail msg => Throws (RuntimeError "FetchError" msg)
       | NetResponse ok status body =>
           if negb ok
           then Throws (MkError ("API request failed with status " ++ show_N status))
           else match body with
                | BodyInvalid msg => Throws (RuntimeError "FetchError" msg)
                | BodyJson data => parse_outcome data
                end
       end.

(** The attempt fails: it ends with a thrown error. *)
Definition fails (svc : Service) (reply : Reply) : bool :=
  match settle svc reply with
  | Throws _ => true
  | _ => false
  end.

(** The three failures of the network: the abort timer fired, the
    transport failed, or the status is not 2xx. *)
Definition network_failure (svc : Service) (reply : Reply) : bool :=
  (timeout (config svc) <=? latency reply)%Z ||
  match result reply with
  | NetFail _ => true
  | NetResponse ok _ _ => negb ok
  end.

(** The body has no non-empty assistant message: it is not JSON, or it is
    a value, [null] included, whose [choices?.[0]?.message?.content] is
    absent or falsy. *)
Definition lacks_message (body : Body) : bool :=
  match body with
  | BodyInvalid _ => true
  | BodyJson data => negb (content_truthy (first_content data))
  end.

(** A 2xx response in time whose body has no non-empty assistant message. *)
Definition malformed (svc : Service) (reply : Reply) : bool :=
  negb (timeout (config svc) <=? latency reply)%Z &&
  match result reply with
  | NetResponse true _ body => lacks_message body
  | _ => false
  end.

(** The error that an attempt ends with, when it fails. *)
Definition error_of (svc : Service) (reply : Reply) : option Error :=
  match settle svc reply with
  | Throws e => Some e
  | _ => None
  end.

(** The trace of attempts [a], [a + 1], ..., [a + k] that all fail but
    perhaps the last: after each of the first [k] a sleep of [d] times its
    number. *)
Fixpoint backoff_trace (u prompt : string) (d : Z) (a k : nat) : list Event :=
  match k with
  | O => [EvFetch u prompt]
  | S k' => EvFetch u prompt :: EvSleep (d * Z.of_nat a)
            :: backoff_trace u prompt d (S a) k'
  end.

Definition sleeps (tr : list Event) : list Z :=
  flat_map (fun e => match e with EvSleep ms => [ms] | EvFetch _ _ => [] end) tr.

Definition key_configured (svc : Service) : bool :=
  match apiKey svc with
  | Some k => truthy k
  | None => false
  end.

Definition valid_repoInfo (repoInfo : JsValue) : bool :=
  match repoInfo with
  | JsObject _ => true
  | _ => false
  end.

Definition prompt_of (repoInfo : JsValue) : string :=
  match repoInfo with
  | JsObject o => buildAnalysisPrompt o
  | _ => EmptyString
  end.

(** The failures of an analysis started on an empty trace, each with the
    error it raises inside [analyzeRepository]. The last one is the
    exhaustion of the attempts: each of them fails, with a network
    failure, a body that is not JSON, a malformed body or an error of the
    extraction, and the error of the last one is raised. *)
Inductive failure (svc : Service) (world : World) (repoInfo : JsValue) : Error -> Prop :=
| missing_credential :
    key_configured svc = false ->
    failure svc world repoInfo (MkError "DeepSeek API key not configured")
| invalid_metadata :
    key_configured svc = true ->
    valid_repoInfo repoInfo = false ->
    failure svc world repoInfo (MkError "Invalid repository information")
| attempts_exhausted (e : Error) :
    key_configured svc = true ->
    valid_repoInfo repoInfo = true ->
    (forall n, 1 <= n <= Nat.max 1 (maxRetries (config svc)) ->
               fails svc (world n) = true) ->
    error_of svc (world (Nat.max 1 (maxRetries (config svc)))) = Some e ->
    failure svc world repoInfo e.

End ClientSpec.


(* ================================================================== *)
(** * Inputs of the examples *)
(* ================================================================== *)

Module Examples.
Import Str Spec Effects AIService.
Local Open Scope string_scope.

(** A response in the required format: a fenced diagram and a fenced
    summary, no heading. *)
Definition scenario_A : string :=
  "```html" ++ nl ++ "<div>X</div>" ++ nl ++ "``` " ++ nl
  ++ "```text" ++ nl ++ "Summary line" ++ nl ++ "``` ".

(** A response with a diagram outside any fence. *)
Definition bare_diagram : string :=
  "Here: <div id=x " ++ marker ++ "><p>A</p></div> done".

(** A response whose diagram, outside any fence, has two elements nested
    in it. *)
Definition nested_diagram : string :=
  "<div " ++ marker ++ "><div>UI</div><div>API</div></div>".

(** A response with the heading in upper case and items below it. *)
Definition french_report : string :=
  "Intro" ++ nl ++ "## RECOMMANDATIONS :" ++ nl ++ "- Add tests" ++ nl
  ++ "  " ++ nl ++ "- Write docs" ++ nl ++ nl ++ "- Later".


(** The service with a credential and the default configuration. *)
Definition service : Service := mkService (Some "sk-test") DEFAULT_CONFIG.

Definition no_credential : Service := mkService None DEFAULT_CONFIG.

(** The service with a credential and a budget of one attempt. *)
Definition single_attempt : Service :=
  mkService (Some "sk-test")
    (mkConfig (url DEFAULT_CONFIG) (model DEFAULT_CONFIG) 1 1000 15000).

Definition some_repo : JsValue :=
  JsObject (mkRepoObject (Some "GitInspect") None (Some "JavaScript") None).

(** A 200 response, after 10 ms, with the assistant message [text]. *)
Definition completion (text : string) : Reply :=
  mkReply 10
    (NetResponse true 200
       (BodyJson
          (DataObject
             (mkData (Some [mkChoice (Some (mkMessage (ContentStr text)))]))))).

(** A 200 response without any choice. *)
Definition no_choice : Reply :=
  mkReply 10 (NetResponse true 200 (BodyJson (DataObject (mkData (Some []))))).

(** A 200 response whose body is the JSON text [null]. *)
Definition null_body : Reply :=
  mkReply 10 (NetResponse true 200 (BodyJson DataNull)).

(** A 500 response. *)
Definition server_error : Reply :=
  mkReply 10 (NetResponse false 500 (BodyInvalid "invalid json response body")).

Definition always (reply : Reply) : World := fun _ => reply.

(** The first call gets a body without choice, the later ones a diagram. *)
Definition malformed_once : World :=
  fun n => if Nat.eqb n 1 then no_choice else completion scenario_A.

(** A repository object of the upstream API, of size 2048. *)
Definition upstream_repo : GitHubService.RepoData :=
  {| GitHubService.d_name := "GitInspect";
     GitHubService.d_owner := Some (GitHubService.mkOwner "devnetworking");
     GitHubService.d_description := None;
     GitHubService.d_html_url := "https://github.com/devnetworking/GitInspect";
     GitHubService.d_stargazers_count := 1;
     GitHubService.d_forks_count := 0;
     GitHubService.d_open_issues_count := 0;
     GitHubService.d_language := Some "JavaScript";
     GitHubService.d_license := None;
     GitHubService.d_created_at := "2025-05-01T10:00:00Z";
     GitHubService.d_updated_at := "2025-06-01T10:00:00Z";
     GitHubService.d_size := 2048;
     GitHubService.d_topics := None |}.

(** An upstream that answers 404 to every path. *)
Definition not_found : string -> GitHubService.AxiosOutcome :=
  fun _ => GitHubService.AxiosError (Some 404%Z).

(** A host that prints a date as it is written. *)
Definition plain_date : string -> string := fun iso => iso.

End Examples.


(* ================================================================== *)
(** * Words for the properties of the whole service *)
(* ================================================================== *)

Module Coverage.
Import Str Spec Effects AIService ClientSpec.
Local Open Scope string_scope.

(** A response that follows [getResponseFormat]: a fenced block tagged
    html around [diagram], an empty line, a fenced block tagged text
    around [summary]. *)
Definition formatted_response (diagram summary : string) : string :=
  "```html" ++ nl ++ diagram ++ nl ++ "```" ++ nl ++ nl
  ++ "```text" ++ nl ++ summary ++ nl ++ "```".

(** The two placeholders of [getResponseFormat]. *)
Definition placeholder_diagram : string :=
  "<div class=" ++ dq ++ "architecture-diagram" ++ dq ++ ">" ++ nl
  ++ "  <!-- Diagramme HTML/CSS ici -->" ++ nl ++ "</div>".

Definition placeholder_summary : string := "// Résumé technique ici".

(** The call of [fetch] is answered in time by a 2xx response whose first
    choice carries the non-empty text [c]. *)
Definition answers (svc : Service) (reply : Reply) (c : string) : Prop :=
  (latency reply < timeout (config svc))%Z /\
  c <> EmptyString /\
  exists status data,
    result reply = NetResponse true status (BodyJson data) /\
    first_content data = ContentStr c.

(** What [parseAIResponse] returns for the text [c]. *)
Definition analysis_of (c : string) : Analysis :=
  {| rawContent := c;
     diagram := extractHtmlContent c;
     summary_of := extractTextSummary c |}.

(** An event of the client for the prompt [p]: a call of the configured
    URL with [p], or a sleep of the base delay times an attempt number
    from [a] on and below the maximum. *)
Definition client_event (svc : Service) (p : string) (a : nat) (e : Event) : Prop :=
  e = EvFetch (url (config svc)) p \/
  exists n, a <= n < maxRetries (config svc) /\
            e = EvSleep (retryDelay (config svc) * Z.of_nat n).

(** The three errors of the metadata client. *)
Definition github_errors : list Error :=
  [ MkError "Dépôt non trouvé";
    MkError "Limite de requêtes GitHub atteinte";
    MkError "Erreur de communication avec GitHub" ].

(** The recommendations of the error page of the controller. *)
Definition controller_recommendations : list string :=
  [ "Actualiser la page"; "Vérifier le nom du dépôt"; "Contacter le support" ].

(** An upstream that answers every path with the repository [data]. *)
Definition upstream_of (data : GitHubService.RepoData)
  : string -> GitHubService.AxiosOutcome :=
  fun _ => GitHubService.AxiosData data.

End Coverage.

(* ================================================================== *)
(** * Facts about strings *)
(* ================================================================== *)

Module StrFacts.
Import Str Spec.
Local Open Scope string_scope.

#[global] Arguments char_eq : simpl never.

Lemma append_assoc (a b c : string) : (a ++ b) ++ c = a ++ (b ++ c).
Proof. induction a as [|x a IH]; simpl; [reflexivity | now rewrite IH]. Qed.

Lemma append_nil_r (a : string) : a ++ EmptyString = a.
Proof. induction a as [|x a IH]; simpl; [reflexivity | now rewrite IH]. Qed.

Lemma length_append (a b : string) :
  String.length (a ++ b) = String.length a + String.length b.
Proof. induction a as [|x a IH]; simpl; [reflexivity | now rewrite IH]. Qed.

Lemma append_inv_head (a b c : string) : a ++ b = a ++ c -> b = c.
Proof. induction a as [|x a IH]; simpl; intros H; [exact H | injection H; auto]. Qed.

Lemma append_eq_length (a b c d : string) :
  a ++ b = c ++ d -> String.length a = String.length c -> a = c /\ b = d.
Proof.
  revert c. induction a as [|x a IH]; intros [|y c]; simpl; intros H L;
    try discriminate; [auto|].
  injection H as -> H. injection L as L. destruct (IH _ H L) as [-> ->]. auto.
Qed.

Lemma drop_nil (n : nat) : drop n EmptyString = EmptyString.
Proof. destruct n; reflexivity. Qed.

Lemma take_nil (n : nat) : take n EmptyString = EmptyString.
Proof. destruct n; reflexivity. Qed.

Lemma take_drop (n : nat) (s : string) : take n s ++ drop n s = s.
Proof.
  revert s. induction n as [|n IH]; intros [|c s]; simpl; try reflexivity.
  now rewrite IH.
Qed.

Lemma drop_app_length (a b : string) : drop (String.length a) (a ++ b) = b.
Proof. induction a as [|x a IH]; simpl; auto. Qed.

Lemma take_app_length (a b : string) : take (String.length a) (a ++ b) = a.
Proof. induction a as [|x a IH]; simpl; [reflexivity | now rewrite IH]. Qed.

Lemma length_take (n : nat) (s : string) :
  n <= String.length s -> String.length (take n s) = n.
Proof.
  revert s. induction n as [|n IH]; intros [|c s]; simpl; intros H;
    try reflexivity; try lia.
  rewrite IH; [reflexivity | lia].
Qed.

Lemma length_drop (n : nat) (s : string) :
  String.length (drop n s) = String.length s - n.
Proof.
  revert s. induction n as [|n IH]; intros [|c s]; simpl; auto.
Qed.

Lemma drop_drop (n m : nat) (s : string) : drop n (drop m s) = drop (m + n) s.
Proof.
  revert s. induction m as [|m IH]; intros s; simpl; [reflexivity|].
  destruct s as [|c s]; [now rewrite drop_nil | apply IH].
Qed.

Lemma drop_all (n : nat) (s : string) :
  String.length s <= n -> drop n s = EmptyString.
Proof.
  revert s. induction n as [|n IH]; intros [|c s]; simpl; intros H;
    try reflexivity; try lia.
  apply IH. lia.
Qed.

(** A decomposition of [s] is a cut of [s] at the length of its head. *)
Lemma split_take_drop (a b s : string) :
  s = a ++ b -> a = take (String.length a) s /\ b = drop (String.length a) s.
Proof. intros ->. now rewrite take_app_length, drop_app_length. Qed.

Lemma char_eq_refl (ic : bool) (a : ascii) : char_eq ic a a = true.
Proof. unfold char_eq. destruct ic; apply Ascii.eqb_refl. Qed.

Lemma char_eq_exact (a b : ascii) : char_eq false a b = true <-> a = b.
Proof. unfold char_eq. apply Ascii.eqb_eq. Qed.

(** ** Literals at the head of a text *)

Lemma strip_prefix_app (ic : bool) (p s : string) :
  strip_prefix ic p (p ++ s) = Some s.
Proof.
  induction p as [|a p IH]; simpl; [reflexivity|].
  now rewrite char_eq_refl.
Qed.

Lemma strip_prefix_exact (p s s' : string) :
  strip_prefix false p s = Some s' <-> s = p ++ s'.
Proof.
  split.
  - revert s. induction p as [|a p IH]; simpl; intros s H.
    + now injection H as ->.
    + destruct s as [|b s]; [discriminate|].
      destruct (char_eq false a b) eqn:E; [|discriminate].
      apply char_eq_exact in E. subst b. now rewrite (IH _ H).
  - intros ->. apply strip_prefix_app.
Qed.

(** Under the [i] flag the head has the letters of the literal, in any case. *)
Lemma strip_prefix_nocase (p s s' : string) :
  strip_prefix true p s = Some s' <->
  exists h, s = h ++ s' /\ same_letters p h.
Proof.
  unfold same_letters. split.
  - revert s. induction p as [|a p IH]; simpl; intros s H.
    + injection H as ->. now exists EmptyString.
    + destruct s as [|b s]; [discriminate|].
      destruct (char_eq true a b) eqn:E; [|discriminate].
      destruct (IH _ H) as [h [-> Hh]].
      exists (String b h). simpl. now rewrite E.
  - intros [h [-> Hh]]. revert h Hh. induction p as [|a p IH]; simpl; intros h Hh.
    + destruct h; [reflexivity | discriminate].
    + destruct h as [|b h]; [discriminate|]. simpl.
      destruct (char_eq true a b); [|discriminate]. now apply IH.
Qed.

Lemma same_letters_length (p h : string) :
  same_letters p h -> String.length h = String.length p.
Proof.
  unfold same_letters. revert h. induction p as [|a p IH]; simpl; intros h H.
  - destruct h; [reflexivity | discriminate].
  - destruct h as [|b h]; [discriminate|].
    destruct (char_eq true a b); [|discriminate]. simpl. f_equal. now apply IH.
Qed.

Lemma strip_prefix_length (ic : bool) (p s s' : string) :
  strip_prefix ic p s = Some s' ->
  String.length s = String.length p + String.length s' /\
  s' = drop (String.length p) s.
Proof.
  revert s. induction p as [|a p IH]; simpl; intros s H.
  - injection H as ->. auto.
  - destruct s as [|b s]; [discriminate|].
    destruct (char_eq ic a b); [|discriminate].
    destruct (IH _ H) as [L D]. simpl. split; [lia | exact D].
Qed.


(** ** The first occurrence of a literal *)

Lemma find_at (ic : bool) (p s a b : string) :
  find ic p s = Some (a, b) ->
  strip_prefix ic p (drop (String.length a) s) = Some b /\
  a = take (String.length a) s.
Proof.
  revert a. induction s as [|c s IH]; intros a; simpl.
  - destruct (strip_prefix ic p EmptyString) eqn:E; [|discriminate].
    intros H. injection H as <- <-. simpl. auto.
  - destruct (strip_prefix ic p (String c s)) eqn:E.
    + intros H. injection H as <- <-. simpl. auto.
    + destruct (find ic p s) as [[a' b']|] eqn:F; [|discriminate].
      intros H. injection H as <- <-. simpl.
      destruct (IH _ eq_refl) as [H1 H2]. split; [exact H1 | now rewrite <- H2].
Qed.

Lemma find_first (ic : bool) (p s a b : string) :
  find ic p s = Some (a, b) ->
  forall n, n < String.length a -> strip_prefix ic p (drop n s) = None.
Proof.
  revert a. induction s as [|c s IH]; intros a; simpl.
  - destruct (strip_prefix ic p EmptyString) eqn:E; [|discriminate].
    intros H. injection H as <- <-. simpl. intros n Hn. lia.
  - destruct (strip_prefix ic p (String c s)) eqn:E.
    + intros H. injection H as <- <-. simpl. intros n Hn. lia.
    + destruct (find ic p s) as [[a' b']|] eqn:F; [|discriminate].
      intros H. injection H as <- <-. simpl. intros [|n] Hn; simpl.
      * exact E.
      * apply (IH _ eq_refl). lia.
Qed.

Lemma find_None (ic : bool) (p s : string) :
  find ic p s = None -> forall n, strip_prefix ic p (drop n s) = None.
Proof.
  induction s as [|c s IH]; simpl.
  - destruct (strip_prefix ic p EmptyString) eqn:E; [discriminate|].
    intros _ n. now rewrite drop_nil.
  - destruct (strip_prefix ic p (String c s)) eqn:E; [discriminate|].
    destruct (find ic p s) as [[a' b']|] eqn:F; [discriminate|].
    intros _ [|n]; simpl; [exact E | now apply IH].
Qed.

Lemma find_complete (ic : bool) (p s b : string) (n : nat) :
  strip_prefix ic p (drop n s) = Some b ->
  exists a' b', find ic p s = Some (a', b') /\ String.length a' <= n.
Proof.
  destruct (find ic p s) as [[a' b']|] eqn:F.
  - intros H. exists a', b'. split; [reflexivity|].
    destruct (Nat.le_gt_cases (String.length a') n) as [L|L]; [exact L|].
    rewrite (find_first _ _ _ _ _ F n L) in H. discriminate.
  - intros H. rewrite (find_None _ _ _ F n) in H. discriminate.
Qed.

Lemma find_split (p s a b : string) :
  find false p s = Some (a, b) -> s = a ++ p ++ b.
Proof.
  intros F. destruct (find_at _ _ _ _ _ F) as [H1 H2].
  apply strip_prefix_exact in H1.
  rewrite <- (take_drop (String.length a) s), <- H2, H1. reflexivity.
Qed.

Lemma find_split_nocase (p s a b : string) :
  find true p s = Some (a, b) ->
  exists h, s = a ++ h ++ b /\ same_letters p h.
Proof.
  intros F. destruct (find_at _ _ _ _ _ F) as [H1 H2].
  apply strip_prefix_nocase in H1. destruct H1 as [h [H1 Hh]].
  exists h. split; [|exact Hh].
  rewrite <- (take_drop (String.length a) s), <- H2, H1. reflexivity.
Qed.

Lemma splits_at_strip (p pre post s : string) :
  splits_at p pre post s ->
  strip_prefix false p (drop (String.length pre) s) = Some post.
Proof.
  unfold splits_at. intros ->. rewrite drop_app_length. apply strip_prefix_app.
Qed.

Lemma first_occurrence_find (p pre post s : string) :
  first_occurrence p pre post s <-> find false p s = Some (pre, post).
Proof.
  split.
  - intros [Hs Hmin].
    destruct (find_complete _ _ _ _ _ (splits_at_strip _ _ _ _ Hs))
      as [a' [b' [F L]]].
    pose proof (find_split _ _ _ _ F) as Hs'.
    pose proof (Hmin _ _ Hs') as L'.
    unfold splits_at in Hs. rewrite Hs in Hs'.
    destruct (append_eq_length _ _ _ _ Hs') as [-> E]; [lia|].
    apply append_inv_head in E. subst b'. exact F.
  - intros F. split; [exact (find_split _ _ _ _ F)|].
    intros pre' post' Hs'.
    destruct (Nat.le_gt_cases (String.length pre) (String.length pre')) as [L|L];
      [exact L|].
    pose proof (find_first _ _ _ _ _ F _ L) as N.
    rewrite (splits_at_strip _ _ _ _ Hs') in N. discriminate.
Qed.

Lemma occurs_find (p s : string) :
  occurs p s <-> find false p s <> None.
Proof.
  split.
  - intros [pre [post Hs]].
    destruct (find_complete _ _ _ _ _ (splits_at_strip _ _ _ _ Hs))
      as [a' [b' [F _]]].
    rewrite F. discriminate.
  - destruct (find false p s) as [[a b]|] eqn:F; [|congruence].
    intros _. exists a, b. exact (find_split _ _ _ _ F).
Qed.

Lemma not_occurs_find (p s : string) :
  ~ occurs p s <-> find false p s = None.
Proof.
  rewrite occurs_find. destruct (find false p s); split; intros H;
    try reflexivity; try congruence.
  exfalso. apply H. discriminate.
Qed.

(** An occurrence in a tail of [s] is an occurrence in [s]. *)
Lemma find_drop_some (ic : bool) (p s : string) (n : nat) :
  find ic p (drop n s) <> None -> find ic p s <> None.
Proof.
  destruct (find ic p (drop n s)) as [[a b]|] eqn:F; [|congruence].
  intros _. destruct (find_at _ _ _ _ _ F) as [H _].
  rewrite drop_drop in H.
  destruct (find_complete _ _ _ _ _ H) as [a' [b' [F' _]]].
  rewrite F'. discriminate.
Qed.


(** ** Runs of characters *)

Lemma span_le (f : ascii -> bool) (s : string) : span f s <= String.length s.
Proof.
  induction s as [|c s IH]; simpl; [lia|]. destruct (f c); simpl; lia.
Qed.

Lemma span_take (f : ascii -> bool) (s : string) :
  all_chars f (take (span f s) s).
Proof.
  unfold all_chars. induction s as [|c s IH]; simpl; [reflexivity|].
  destruct (f c) eqn:E; simpl; [|reflexivity]. now rewrite E, IH.
Qed.

(** The run stops at the end of the text or at a character outside it. *)
Lemma span_stop (f : ascii -> bool) (s : string) :
  match drop (span f s) s with
  | String c _ => f c = false
  | EmptyString => True
  end.
Proof.
  induction s as [|c s IH]; simpl; [exact I|].
  destruct (f c) eqn:E; simpl; [exact IH | exact E].
Qed.

Lemma span_inside (f : ascii -> bool) (s : string) (n : nat) :
  n < span f s -> exists c s', drop n s = String c s' /\ f c = true.
Proof.
  revert n. induction s as [|c s IH]; simpl; intros n H; [lia|].
  destruct (f c) eqn:E; [|lia].
  destruct n as [|n]; simpl; [eauto|]. apply IH. lia.
Qed.

Lemma span_drop (f : ascii -> bool) (s : string) (n : nat) :
  n <= span f s -> span f (drop n s) = span f s - n.
Proof.
  revert n. induction s as [|c s IH]; simpl; intros n H.
  - now rewrite drop_nil.
  - destruct n as [|n]; simpl; [now rewrite Nat.sub_0_r|].
    destruct (f c) eqn:E; [|lia]. simpl. apply IH. lia.
Qed.

Lemma span_app (f : ascii -> bool) (a b : string) :
  all_chars f a ->
  match b with String c _ => f c = false | EmptyString => True end ->
  span f (a ++ b) = String.length a.
Proof.
  unfold all_chars. induction a as [|x a IH]; simpl; intros Ha Hb.
  - destruct b as [|c b]; simpl; [reflexivity | now rewrite Hb].
  - destruct (f x); [|discriminate]. injection Ha as Ha. now rewrite IH.
Qed.

Lemma span_app_ge (f : ascii -> bool) (a b : string) :
  all_chars f a -> String.length a <= span f (a ++ b).
Proof.
  unfold all_chars. induction a as [|x a IH]; simpl; intros Ha; [lia|].
  destruct (f x); [|discriminate]. injection Ha as Ha.
  specialize (IH Ha). lia.
Qed.

(** A literal made of characters of the run, found at the head, lies
    inside the run. *)
Lemma strip_prefix_span (f : ascii -> bool) (p s x : string) :
  strip_prefix false p s = Some x -> all_chars f p ->
  String.length p <= span f s.
Proof.
  intros H Hp. apply strip_prefix_exact in H. subst s. now apply span_app_ge.
Qed.

Lemma take_app_le (n : nat) (a b : string) :
  String.length a <= n -> take n (a ++ b) = a ++ take (n - String.length a) b.
Proof.
  revert n. induction a as [|x a IH]; simpl; intros n H.
  - now rewrite Nat.sub_0_r.
  - destruct n as [|n]; [lia|]. simpl. rewrite IH; [reflexivity | lia].
Qed.

(** An occurrence that ends within the first [m] characters is an
    occurrence in these characters. *)
Lemma occurrence_in_take (p s x : string) (n m : nat) :
  strip_prefix false p (drop n s) = Some x ->
  n <= String.length s -> n + String.length p <= m ->
  find false p (take m s) <> None.
Proof.
  intros H Ln Lm. apply strip_prefix_exact in H.
  assert (E : s = take n s ++ p ++ x) by (now rewrite <- H, take_drop).
  assert (La : String.length (take n s) = n) by (apply length_take; lia).
  remember (take n s) as a eqn:Ha. clear Ha H Ln. subst s.
  assert (Q : strip_prefix false p (drop (String.length a) (take m (a ++ p ++ x)))
              = Some (take (m - String.length a - String.length p) x)).
  { rewrite take_app_le by lia. rewrite take_app_le by lia.
    rewrite drop_app_length. apply strip_prefix_app. }
  destruct (find_complete _ _ _ _ _ Q) as [a' [b [F _]]]. rewrite F. discriminate.
Qed.

(** An occurrence in the first [m] characters is an occurrence in the text. *)
Lemma occurrence_of_take (p s a b : string) (m : nat) :
  find false p (take m s) = Some (a, b) ->
  strip_prefix false p (drop (String.length a) s) = Some (b ++ drop m s) /\
  String.length a + String.length p <= String.length (take m s).
Proof.
  intros F. apply find_split in F. split.
  - rewrite <- (take_drop m s) at 1. rewrite F.
    replace ((a ++ p ++ b) ++ drop m s) with (a ++ p ++ b ++ drop m s)
      by (now rewrite !append_assoc).
    rewrite drop_app_length. apply strip_prefix_app.
  - rewrite F, !length_append. lia.
Qed.

End StrFacts.

(* ================================================================== *)
(** * Facts about the matcher *)
(* ================================================================== *)

Module RegexFacts.
Import Str Spec Regex Patterns StrFacts.
Local Open Scope string_scope.

Section Stars.
Context {R : Type}.

(** A lazy [[\s\S]*?] in front of a literal stops at the first occurrence
    of the literal. *)
Lemma star_lazy_literal (ic : bool) (p : string) (f : nat -> string -> R)
      (k : Cont R) (s : string) :
  (forall i' s' c, k i' s' c =
     match strip_prefix ic p s' with
     | Some s'' => Some (f i' s'')
     | None => None
     end) ->
  forall i cap,
    star_lazy AnyChar i s cap k =
    match find ic p s with
    | Some (a, b) => Some (f (i + String.length a) b)
    | None => None
    end.
Proof.
  intros Hk. induction s as [|c s IH]; intros i cap; simpl; rewrite Hk.
  - destruct (strip_prefix ic p EmptyString); [|reflexivity].
    simpl. now rewrite Nat.add_0_r.
  - destruct (strip_prefix ic p (String c s)).
    + simpl. now rewrite Nat.add_0_r.
    + rewrite IH. destruct (find ic p s) as [[a b]|]; [|reflexivity].
      simpl. now rewrite Nat.add_succ_r.
Qed.

(** A lazy [[\s\S]*?] in front of a test that succeeds at the end of the
    text always succeeds, at the first place where the test does. *)
Lemma star_lazy_until (stop : string -> bool) (f : nat -> R)
      (k : Cont R) (s : string) :
  (forall i' s' c, k i' s' c = if stop s' then Some (f i') else None) ->
  stop EmptyString = true ->
  forall i cap, star_lazy AnyChar i s cap k = Some (f (i + until stop s)).
Proof.
  intros Hk Hend. induction s as [|c s IH]; intros i cap; simpl; rewrite Hk.
  - rewrite Hend. simpl. now rewrite Nat.add_0_r.
  - destruct (stop (String c s)).
    + now rewrite Nat.add_0_r.
    + rewrite IH. now rewrite Nat.add_succ_r.
Qed.

(** A greedy star that can stop at the end of its run does so. *)
Lemma star_greedy_max (cl : cclass) (k : Cont R) (s : string) (r : R) :
  forall i cap,
    k (i + span (in_class cl) s) (drop (span (in_class cl) s) s) cap = Some r ->
    star_greedy cl i s cap k = Some r.
Proof.
  induction s as [|c s IH]; intros i cap; simpl.
  - now rewrite Nat.add_0_r.
  - destruct (in_class cl c); simpl.
    + rewrite Nat.add_succ_r. intros H. now rewrite (IH (S i) cap H).
    + now rewrite Nat.add_0_r.
Qed.

(** A greedy star succeeds with the result of its continuation at some
    place of its run. *)
Lemma star_greedy_some (cl : cclass) (k : Cont R) (s : string) (r : R) :
  forall i cap,
    star_greedy cl i s cap k = Some r ->
    exists n, n <= span (in_class cl) s /\ k (i + n) (drop n s) cap = Some r.
Proof.
  induction s as [|c s IH]; intros i cap; simpl.
  - intros H. exists 0. now rewrite Nat.add_0_r.
  - destruct (in_class cl c).
    + destruct (star_greedy cl (S i) s cap k) as [r'|] eqn:E.
      * intros H. injection H as ->. destruct (IH _ _ E) as [n [L H]].
        exists (S n). split; [lia|]. now rewrite Nat.add_succ_r.
      * intros H. exists 0. split; [lia|]. now rewrite Nat.add_0_r.
    + intros H. exists 0. split; [lia|]. now rewrite Nat.add_0_r.
Qed.

(** It fails when its continuation fails at every place of its run. *)
Lemma star_greedy_none (cl : cclass) (k : Cont R) (s : string) :
  forall i cap,
    (forall n, n <= span (in_class cl) s -> k (i + n) (drop n s) cap = None) ->
    star_greedy cl i s cap k = None.
Proof.
  induction s as [|c s IH]; intros i cap H; simpl.
  - specialize (H 0 (Nat.le_refl _)). now rewrite Nat.add_0_r in H.
  - pose proof (H 0 (Nat.le_0_l _)) as H0. rewrite Nat.add_0_r in H0.
    simpl in H0. simpl in H. destruct (in_class cl c); [|exact H0].
    rewrite IH; [exact H0|].
    intros n Hn. specialize (H (S n)). rewrite Nat.add_succ_r in H.
    apply H. lia.
Qed.

Lemma star_greedy_none_inv (cl : cclass) (k : Cont R) (s : string) :
  forall i cap,
    star_greedy cl i s cap k = None ->
    forall n, n <= span (in_class cl) s -> k (i + n) (drop n s) cap = None.
Proof.
  induction s as [|c s IH]; intros i cap; simpl.
  - intros H n Hn. assert (n = 0) by lia. subst n. now rewrite Nat.add_0_r.
  - destruct (in_class cl c).
    + destruct (star_greedy cl (S i) s cap k) eqn:E; [discriminate|].
      intros H [|n] Hn.
      * now rewrite Nat.add_0_r.
      * rewrite Nat.add_succ_r. simpl. apply (IH (S i) cap E). lia.
    + intros H n Hn. assert (n = 0) by lia. subst n. now rewrite Nat.add_0_r.
Qed.

(** When every success of the continuation in the run gives the same
    result, one success is enough. *)
Lemma star_greedy_unique (cl : cclass) (k : Cont R) (s : string) (r : R)
      (i : nat) (cap : option string) (n : nat) :
  n <= span (in_class cl) s ->
  k (i + n) (drop n s) cap = Some r ->
  (forall m r', m <= span (in_class cl) s ->
                k (i + m) (drop m s) cap = Some r' -> r' = r) ->
  star_greedy cl i s cap k = Some r.
Proof.
  intros Ln Hn Huniq.
  destruct (star_greedy cl i s cap k) as [r'|] eqn:E.
  - destruct (star_greedy_some _ _ _ _ _ _ E) as [m [Lm Hm]].
    now rewrite (Huniq _ _ Lm Hm).
  - rewrite (star_greedy_none_inv _ _ _ _ _ E n Ln) in Hn. discriminate.
Qed.

(** A greedy star whose continuation fails inside the run stops at its end. *)
Lemma star_greedy_commit (cl : cclass) (k : Cont R) (s : string)
      (i : nat) (cap : option string) :
  (forall n, n < span (in_class cl) s -> k (i + n) (drop n s) cap = None) ->
  star_greedy cl i s cap k =
  k (i + span (in_class cl) s) (drop (span (in_class cl) s) s) cap.
Proof.
  intros H.
  destruct (k (i + span (in_class cl) s) (drop (span (in_class cl) s) s) cap)
    as [r|] eqn:E.
  - now apply star_greedy_max.
  - apply star_greedy_none. intros n Hn.
    destruct (Nat.eq_dec n (span (in_class cl) s)) as [->|Hne]; [exact E|].
    apply H. lia.
Qed.

End Stars.

(** ** The leftmost match *)

(** [exec_from] answers with the first index at which the pattern matches. *)
Lemma exec_from_some (ic : bool) (r : regex) (s : string) (m : MatchResult) :
  forall i,
    exec_from ic r i s = Some m ->
    exists n e cap,
      n <= String.length s /\
      run ic r (i + n) (drop n s) None final = Some (e, cap) /\
      m = mkMatch (i + n) (take (e - (i + n)) (drop n s)) cap /\
      forall n', n' < n -> run ic r (i + n') (drop n' s) None final = None.
Proof.
  unfold final.
  induction s as [|c s IH]; intros i; simpl.
  - destruct (run ic r i EmptyString None _) as [[e cap]|] eqn:E; [|discriminate].
    intros H. injection H as <-. exists 0, e, cap. rewrite Nat.add_0_r.
    simpl. repeat split; auto. intros n' Hn'. lia.
  - destruct (run ic r i (String c s) None _) as [[e cap]|] eqn:E.
    + intros H. injection H as <-. exists 0, e, cap. rewrite Nat.add_0_r.
      simpl. repeat split; auto with arith. intros n' Hn'. lia.
    + intros H. destruct (IH _ H) as [n [e [cap [L [Hr [Hm Hfirst]]]]]].
      exists (S n), e, cap. rewrite Nat.add_succ_r. simpl.
      repeat split; auto with arith.
      intros [|n'] Hn'.
      * now rewrite Nat.add_0_r.
      * rewrite Nat.add_succ_r. simpl. apply Hfirst. lia.
Qed.

Lemma exec_from_none (ic : bool) (r : regex) (s : string) :
  forall i,
    (forall n, n <= String.length s ->
               run ic r (i + n) (drop n s) None final = None) ->
    exec_from ic r i s = None.
Proof.
  unfold final.
  induction s as [|c s IH]; intros i H; simpl.
  - specialize (H 0 (Nat.le_refl _)). rewrite Nat.add_0_r in H. simpl in H.
    now rewrite H.
  - pose proof (H 0 (Nat.le_0_l _)) as H0. rewrite Nat.add_0_r in H0.
    simpl in H0. rewrite H0. apply IH. intros n Hn.
    specialize (H (S n)). rewrite Nat.add_succ_r in H. apply H. simpl. lia.
Qed.

Lemma exec_from_first (ic : bool) (r : regex) (s : string)
      (n e : nat) (cap : option string) :
  forall i,
    n <= String.length s ->
    run ic r (i + n) (drop n s) None final = Some (e, cap) ->
    (forall n', n' < n -> run ic r (i + n') (drop n' s) None final = None) ->
    exec_from ic r i s = Some (mkMatch (i + n) (take (e - (i + n)) (drop n s)) cap).
Proof.
  unfold final. revert n.
  induction s as [|c s IH]; intros n i L Hr Hfirst; simpl in *.
  - assert (n = 0) by lia. subst n. rewrite Nat.add_0_r in *. simpl in Hr.
    now rewrite Hr.
  - destruct n as [|n].
    + rewrite Nat.add_0_r in *. simpl in Hr. now rewrite Hr.
    + pose proof (Hfirst 0 (Nat.lt_0_succ _)) as H0.
      rewrite Nat.add_0_r in H0. simpl in H0. rewrite H0.
      rewrite Nat.add_succ_r in *. simpl in Hr.
      apply (IH n (S i)); [lia | exact Hr |].
      intros n' Hn'. specialize (Hfirst (S n')).
      rewrite Nat.add_succ_r in Hfirst. apply Hfirst. lia.
Qed.

End RegexFacts.

(* ================================================================== *)
(** * The patterns of the service, read as searches *)
(* ================================================================== *)

Module PatternFacts.
Import Str Spec Regex Patterns StrFacts RegexFacts AIService.
Local Open Scope string_scope.

(** ** Fenced blocks: [/```html([\s\S]*?)```/] and [/```text([\s\S]*?)```/] *)

Section Fence.
Variable opening : string.

Lemma run_fence (i : nat) (s : string) :
  run false (fence_pattern opening) i s None final =
  match strip_prefix false opening s with
  | Some s1 =>
      match find false fence s1 with
      | Some (inner, _) =>
          Some (i + String.length opening + String.length inner + 3, Some inner)
      | None => None
      end
  | None => None
  end.
Proof.
  unfold fence_pattern. cbn [run].
  destruct (strip_prefix false opening s) as [s1|]; [|reflexivity].
  rewrite (star_lazy_literal false fence
             (fun i' _ => (i' + 3, Some (take (i' - (i + String.length opening)) s1)))).
  - destruct (find false fence s1) as [[inner post]|] eqn:F; [|reflexivity].
    destruct (find_at _ _ _ _ _ F) as [_ T].
    replace (i + String.length opening + String.length inner
             - (i + String.length opening)) with (String.length inner) by lia.
    now rewrite <- T.
  - intros i' s' c. destruct (strip_prefix false fence s'); reflexivity.
Qed.

(** The pattern matches at the first opening, when a fence follows it, and
    nowhere otherwise. *)
Lemma match_fence (s : string) :
  str_match false (fence_pattern opening) s =
  match find false opening s with
  | Some (pre, rest) =>
      match find false fence rest with
      | Some (inner, _) =>
          Some (mkMatch (String.length pre) (opening ++ inner ++ fence) (Some inner))
      | None => None
      end
  | None => None
  end.
Proof.
  unfold str_match.
  destruct (find false opening s) as [[pre rest]|] eqn:F.
  - destruct (find_at _ _ _ _ _ F) as [P T].
    destruct (find false fence rest) as [[inner post]|] eqn:G.
    + pose proof (find_split _ _ _ _ F) as Hs.
      pose proof (find_split _ _ _ _ G) as Hr.
      rewrite (exec_from_first false (fence_pattern opening) s (String.length pre)
                 (String.length pre + String.length opening + String.length inner + 3)
                 (Some inner) 0).
      * simpl. f_equal. f_equal.
        replace (String.length pre + String.length opening + String.length inner + 3
                 - String.length pre)
          with (String.length (opening ++ inner ++ fence))
          by (rewrite !length_append; simpl; lia).
        rewrite Hs, drop_app_length, Hr.
        replace (opening ++ inner ++ fence ++ post)
          with ((opening ++ inner ++ fence) ++ post)
          by (now rewrite !append_assoc).
        apply take_app_length.
      * rewrite Hs, length_append. lia.
      * rewrite run_fence, P, G. reflexivity.
      * intros n' Hn'. rewrite run_fence.
        now rewrite (find_first _ _ _ _ _ F n' Hn').
    + apply exec_from_none. intros n _. rewrite run_fence.
      destruct (strip_prefix false opening (drop n s)) as [s1|] eqn:Q;
        [|reflexivity].
      destruct (find false fence s1) as [[inner post]|] eqn:G'; [|reflexivity].
      exfalso.
      destruct (Nat.le_gt_cases (String.length pre) n) as [L|L].
      * apply strip_prefix_length in Q, P. destruct Q as [_ Q], P as [_ P].
        rewrite drop_drop in Q, P.
        assert (E : s1 = drop (n - String.length pre) rest).
        { rewrite Q, P, drop_drop. f_equal. lia. }
        apply (find_drop_some false fence rest (n - String.length pre));
          [rewrite <- E, G'; discriminate | exact G].
      * rewrite (find_first _ _ _ _ _ F n L) in Q. discriminate.
  - apply exec_from_none. intros n _. rewrite run_fence.
    now rewrite (find_None _ _ _ F n).
Qed.

Lemma match_fence_block (s : string) :
  option_map capture1 (str_match false (fence_pattern opening) s) =
  fenced_block opening s.
Proof.
  rewrite match_fence. unfold fenced_block.
  destruct (find false opening s) as [[pre rest]|]; [|reflexivity].
  destruct (find false fence rest) as [[inner post]|]; reflexivity.
Qed.

(** The function and the relation say the same. *)
Lemma fenced_block_some (inner s : string) :
  fenced_block opening s = Some inner <-> is_fenced_block opening inner s.
Proof.
  unfold fenced_block, is_fenced_block. split.
  - destruct (find false opening s) as [[pre rest]|] eqn:F; [|discriminate].
    destruct (find false fence rest) as [[inner' post]|] eqn:G; [|discriminate].
    intros H. injection H as ->. exists pre, rest, post.
    now rewrite !first_occurrence_find.
  - intros [pre [rest [post [F G]]]].
    apply first_occurrence_find in F, G. now rewrite F, G.
Qed.

Lemma fenced_block_none (s : string) :
  fenced_block opening s = None <-> ~ has_fenced_block opening s.
Proof.
  unfold fenced_block, has_fenced_block. split.
  - intros H [pre [inner [post Hs]]].
    assert (O : strip_prefix false opening (drop (String.length pre) s)
                = Some (inner ++ fence ++ post)).
    { rewrite Hs, drop_app_length. apply strip_prefix_app. }
    destruct (find_complete _ _ _ _ _ O) as [pre0 [rest0 [F L]]].
    rewrite F in H. destruct (find_at _ _ _ _ _ F) as [P _].
    apply strip_prefix_length in P. destruct P as [_ P]. rewrite drop_drop in P.
    assert (C : strip_prefix false fence
                  (drop (String.length pre - String.length pre0 + String.length inner) rest0)
                = Some post).
    { rewrite P, drop_drop.
      replace (String.length pre0 + String.length opening +
               (String.length pre - String.length pre0 + String.length inner))
        with (String.length (pre ++ opening ++ inner))
        by (rewrite !length_append; lia).
      rewrite Hs.
      replace (pre ++ opening ++ inner ++ fence ++ post)
        with ((pre ++ opening ++ inner) ++ fence ++ post)
        by (now rewrite !append_assoc).
      rewrite drop_app_length. apply strip_prefix_app. }
    destruct (find_complete _ _ _ _ _ C) as [a [b [G _]]].
    rewrite G in H. discriminate.
  - intros H.
    destruct (find false opening s) as [[pre rest]|] eqn:F; [|reflexivity].
    destruct (find false fence rest) as [[inner post]|] eqn:G; [|reflexivity].
    exfalso. apply H. exists pre, inner, post.
    rewrite (find_split _ _ _ _ F), (find_split _ _ _ _ G). reflexivity.
Qed.

End Fence.


(** ** The heading: [/Recommandations?.*([\s\S]*?)(?=\n\n|$)/i] *)

Lemma strip_blank_line_case (s : string) :
  strip_prefix true blank_line s = strip_prefix false blank_line s.
Proof.
  destruct s as [|a [|b s]]; cbn.
  - reflexivity.
  - destruct a as [[] [] [] [] [] [] [] []]; reflexivity.
  - destruct a as [[] [] [] [] [] [] [] []]; try reflexivity.
    destruct b as [[] [] [] [] [] [] [] []]; reflexivity.
Qed.

Lemma optional_s_not_terminator (c : ascii) :
  char_eq true "s" c = true -> not_terminator c = true.
Proof.
  destruct c as [[] [] [] [] [] [] [] []]; vm_compute; congruence.
Qed.

(** The lazy group in front of the lookahead takes the text up to the first
    blank line or the end. *)
Lemma run_group_until (i : nat) (s : string) (cap : option string) :
  run true (Cat (Group (StarLazy AnyChar)) (Ahead (Alt (Lit blank_line) Eos)))
      i s cap final =
  Some (i + until at_blank_or_end s, Some (take (until at_blank_or_end s) s)).
Proof.
  cbn [run].
  rewrite (star_lazy_until at_blank_or_end (fun i' => (i', Some (take (i' - i) s)))).
  - cbv beta.
    replace (i + until at_blank_or_end s - i) with (until at_blank_or_end s) by lia.
    reflexivity.
  - intros i' s' c. unfold at_blank_or_end.
    destruct (strip_prefix true blank_line s'); [reflexivity|].
    destruct s'; reflexivity.
  - reflexivity.
Qed.

(** [.*] takes the rest of the line first, and the group starts below it. *)
Lemma run_line_group (i : nat) (s : string) (cap : option string) :
  let below := drop (span not_terminator s) s in
  run true (Cat (Star Dot)
              (Cat (Group (StarLazy AnyChar)) (Ahead (Alt (Lit blank_line) Eos))))
      i s cap final =
  Some (i + span not_terminator s + until at_blank_or_end below,
        Some (take (until at_blank_or_end below) below)).
Proof.
  intros below. cbn [run]. apply star_greedy_max.
  change (in_class Dot) with not_terminator.
  exact (run_group_until _ _ _).
Qed.

Lemma run_recs (i : nat) (s : string) :
  option_map snd (run true recsRegex i s None final) =
  match strip_prefix true heading_word s with
  | Some after =>
      let below := drop (span not_terminator after) after in
      Some (Some (take (until at_blank_or_end below) below))
  | None => None
  end.
Proof.
  unfold recsRegex.
  remember (Cat (Star Dot)
              (Cat (Group (StarLazy AnyChar)) (Ahead (Alt (Lit (nl ++ nl)) Eos))))
    as tail eqn:Ht.
  assert (Htail : forall j x c,
             run true tail j x c final =
             Some (j + span not_terminator x
                   + until at_blank_or_end (drop (span not_terminator x) x),
                   Some (take (until at_blank_or_end (drop (span not_terminator x) x))
                           (drop (span not_terminator x) x)))).
  { intros j x c. subst tail. exact (run_line_group j x c). }
  clear Ht. cbn [run].
  change (strip_prefix true "Recommandation" s)
    with (strip_prefix true heading_word s).
  destruct (strip_prefix true heading_word s) as [after|]; [|reflexivity].
  cbv zeta. destruct after as [|c after']; cbn [strip_prefix].
  - now rewrite Htail.
  - destruct (char_eq true "s" c) eqn:E.
    + rewrite Htail. cbn [option_map snd span].
      now rewrite (optional_s_not_terminator _ E).
    + now rewrite Htail.
Qed.

Lemma take_until_blank (s : string) :
  take (until at_blank_or_end s) s =
  match find false blank_line s with
  | Some (run, _) => run
  | None => s
  end.
Proof.
  induction s as [|c s IH].
  - reflexivity.
  - cbn [until find]. unfold at_blank_or_end at 1.
    rewrite strip_blank_line_case.
    destruct (strip_prefix false blank_line (String c s)); [reflexivity|].
    cbn [take]. rewrite IH.
    destruct (find false blank_line s) as [[run post]|]; reflexivity.
Qed.

(** The pattern matches at the first heading word, and group 1 is the text
    below the heading line up to a blank line or the end. *)
Lemma match_recs (s : string) :
  option_map group1 (str_match true recsRegex s) =
  option_map Some (heading_run s).
Proof.
  unfold str_match, heading_run.
  destruct (find true heading_word s) as [[pre after]|] eqn:F.
  - destruct (find_at _ _ _ _ _ F) as [P T].
    pose proof (run_recs (0 + String.length pre) (drop (String.length pre) s)) as H.
    rewrite P in H. cbv zeta in H.
    destruct (run true recsRegex (0 + String.length pre)
                (drop (String.length pre) s) None final) as [[e cap]|] eqn:E;
      [|discriminate].
    cbn [option_map snd] in H. injection H as ->.
    assert (L : String.length pre <= String.length s).
    { destruct (find_split_nocase _ _ _ _ F) as [h [-> _]].
      rewrite length_append. lia. }
    assert (N : forall n', n' < String.length pre ->
                  run true recsRegex (0 + n') (drop n' s) None final = None).
    { intros n' Hn'. pose proof (run_recs (0 + n') (drop n' s)) as H'.
      rewrite (find_first _ _ _ _ _ F n' Hn') in H'.
      destruct (run true recsRegex (0 + n') (drop n' s) None final);
        [discriminate | reflexivity]. }
    rewrite (exec_from_first _ _ _ _ _ _ _ L E N).
    cbn [option_map group1]. rewrite take_until_blank.
    destruct (find false blank_line _) as [[run post]|]; reflexivity.
  - rewrite exec_from_none; [reflexivity|].
    intros n _. pose proof (run_recs (0 + n) (drop n s)) as H'.
    rewrite (find_None _ _ _ F n) in H'.
    destruct (run true recsRegex (0 + n) (drop n s) None final);
      [discriminate | reflexivity].
Qed.

(** ** The marker: [/^- /] *)

Lemma exec_bos_later (ic : bool) (r : regex) (s : string) :
  forall i, 0 < i -> exec_from ic (Cat Bos r) i s = None.
Proof.
  induction s as [|c s IH]; intros i Hi; cbn [exec_from run];
    destruct i as [|i]; try lia; cbn [Nat.eqb]; [reflexivity|].
  apply IH. lia.
Qed.

Lemma replace_marker (r : string) :
  replace false markerRegex EmptyString r = strip_marker r.
Proof.
  unfold replace, str_match, markerRegex, strip_marker.
  destruct r as [|c r]; cbn [exec_from run Nat.eqb].
  - reflexivity.
  - destruct (strip_prefix false "- " (String c r)) as [r'|] eqn:E.
    + cbn [index whole Nat.add take append].
      apply strip_prefix_length in E. destruct E as [L ->].
      rewrite length_take; [reflexivity|]. simpl in L. simpl. lia.
    + now rewrite exec_bos_later by lia.
Qed.


(** ** The element: [/<div[^>]*class="architecture-diagram"[^>]*>([\s\S]*?)<\/div>/] *)

Lemma marker_no_gt : all_chars not_gt marker.
Proof. reflexivity. Qed.

(** The end of the tag, the body and the closing tag. *)
Lemma run_div_body (j : nat) (x : string) (c : option string) :
  run false (Cat (Lit ">") (Cat (Group (StarLazy AnyChar)) (Lit "</div>")))
      j x c final =
  match strip_prefix false ">" x with
  | Some x3 =>
      match find false "</div>" x3 with
      | Some (body, _) => Some (j + 1 + String.length body + 6, Some body)
      | None => None
      end
  | None => None
  end.
Proof.
  cbn [run].
  destruct (strip_prefix false ">" x) as [x3|]; [|reflexivity].
  rewrite (star_lazy_literal false "</div>"
             (fun i' _ => (i' + 6, Some (take (i' - (j + 1)) x3)))).
  - destruct (find false "</div>" x3) as [[body post]|] eqn:F; [|reflexivity].
    destruct (find_at _ _ _ _ _ F) as [_ T].
    cbn [String.length].
    replace (j + 1 + String.length body - (j + 1)) with (String.length body) by lia.
    now rewrite <- T.
  - intros i' s' c'. destruct (strip_prefix false "</div>" s'); reflexivity.
Qed.

(** The second [[^>]*] runs to the end of the tag. *)
Lemma run_div_attrs (j : nat) (x : string) (c : option string) :
  run false (Cat (Star (NotChar ">"))
               (Cat (Lit ">") (Cat (Group (StarLazy AnyChar)) (Lit "</div>"))))
      j x c final =
  run false (Cat (Lit ">") (Cat (Group (StarLazy AnyChar)) (Lit "</div>")))
      (j + span not_gt x) (drop (span not_gt x) x) c final.
Proof.
  remember (Cat (Lit ">") (Cat (Group (StarLazy AnyChar)) (Lit "</div>")))
    as body eqn:Hb.
  cbn [run]. change (in_class (NotChar ">")) with not_gt.
  rewrite star_greedy_commit; [reflexivity|].
  change (in_class (NotChar ">")) with not_gt.
  intros n Hn. subst body. rewrite run_div_body.
  destruct (span_inside _ _ _ Hn) as [ch [x' [-> Hch]]].
  cbn [strip_prefix]. unfold not_gt in Hch.
  unfold char_eq. rewrite Ascii.eqb_sym.
  destruct (Ascii.eqb ch ">"); [discriminate | reflexivity].
Qed.

Section Element.
Variables (i : nat) (s1 : string).

(** Wherever the marker is found in the attributes, the match ends at the
    same place. *)
Lemma run_div_marker (n : nat) :
  n <= span not_gt s1 ->
  run false div_tail (i + n) (drop n s1) None final =
  match strip_prefix false marker (drop n s1) with
  | Some _ => div_tag_end i s1
  | None => None
  end.
Proof.
  intros Ln. unfold div_tail.
  remember (Cat (Star (NotChar ">"))
              (Cat (Lit ">") (Cat (Group (StarLazy AnyChar)) (Lit "</div>"))))
    as attrs eqn:Ha.
  cbn [run].
  destruct (strip_prefix false marker (drop n s1)) as [x2|] eqn:P; [|reflexivity].
  subst attrs. rewrite run_div_attrs, run_div_body.
  pose proof (strip_prefix_span not_gt _ _ _ P marker_no_gt) as Lm.
  rewrite span_drop in Lm by exact Ln.
  apply strip_prefix_length in P. destruct P as [_ P].
  rewrite drop_drop in P. subst x2.
  rewrite (span_drop not_gt s1 (n + String.length marker)) by lia.
  rewrite (drop_drop _ (n + String.length marker)).
  replace (n + String.length marker + (span not_gt s1 - (n + String.length marker)))
    with (span not_gt s1) by lia.
  replace (i + n + String.length marker + (span not_gt s1 - (n + String.length marker)))
    with (i + span not_gt s1) by lia.
  unfold div_tag_end.
  destruct (strip_prefix false ">" (drop (span not_gt s1) s1)) as [s3|];
    [|reflexivity].
  destruct (find false "</div>" s3) as [[body post]|]; reflexivity.
Qed.

(** The first [[^>]*] is tried from the end of the tag backwards. *)
Lemma run_div_tag :
  star_greedy (NotChar ">") i s1 None
    (fun i' s' cap' => run false div_tail i' s' cap' final) =
  match find false marker (take (span not_gt s1) s1) with
  | Some _ => div_tag_end i s1
  | None => None
  end.
Proof.
  destruct (find false marker (take (span not_gt s1) s1)) as [[a b]|] eqn:F.
  - destruct (occurrence_of_take _ _ _ _ _ F) as [P L].
    rewrite length_take in L by apply span_le.
    assert (La : String.length a <= span not_gt s1) by lia.
    destruct (div_tag_end i s1) as [r|] eqn:E.
    + apply (star_greedy_unique _ _ _ _ _ _ (String.length a)).
      * exact La.
      * rewrite run_div_marker by exact La. now rewrite P.
      * intros m r' Lm. rewrite run_div_marker by exact Lm.
        destruct (strip_prefix false marker (drop m s1)); congruence.
    + apply star_greedy_none. intros n Ln.
      rewrite run_div_marker by exact Ln.
      now destruct (strip_prefix false marker (drop n s1)).
  - apply star_greedy_none. intros n Ln.
    rewrite run_div_marker by exact Ln.
    destruct (strip_prefix false marker (drop n s1)) as [x|] eqn:P; [|reflexivity].
    exfalso.
    pose proof (strip_prefix_span not_gt _ _ _ P marker_no_gt) as Lm.
    rewrite span_drop in Lm by exact Ln.
    assert (Lm' : String.length marker <> 0) by (vm_compute; discriminate).
    refine (occurrence_in_take _ _ _ n (span not_gt s1) P _ _ F).
    + pose proof (span_le not_gt s1). lia.
    + lia.
Qed.

End Element.

Lemma run_div (i : nat) (s : string) :
  option_map fst (run false divRegex i s None final) =
  option_map (fun e => i + String.length e) (marked_div_at_head s).
Proof.
  unfold divRegex, marked_div_at_head.
  remember (Cat (Lit ("class=" ++ dq ++ "architecture-diagram" ++ dq))
              (Cat (Star (NotChar ">"))
                 (Cat (Lit ">") (Cat (Group (StarLazy AnyChar)) (Lit "</div>")))))
    as tail eqn:Ht.
  cbn [run].
  destruct (strip_prefix false "<div" s) as [s1|]; [|reflexivity].
  subst tail. rewrite run_div_tag. unfold div_tag_end.
  destruct (find false marker (take (span not_gt s1) s1)); [|reflexivity].
  destruct (strip_prefix false ">" (drop (span not_gt s1) s1)) as [s3|];
    [|reflexivity].
  destruct (find false "</div>" s3) as [[body post]|]; [|reflexivity].
  cbn [option_map fst]. f_equal.
  rewrite !length_append, length_take by apply span_le.
  cbn [String.length]. lia.
Qed.


(** The function and the relation say the same. *)
Lemma marked_div_at_head_spec (e s : string) :
  marked_div_at_head s = Some e <-> marked_div_here e s.
Proof.
  unfold marked_div_at_head, marked_div_here. split.
  - destruct (strip_prefix false "<div" s) as [s1|] eqn:P; [|discriminate].
    cbv zeta.
    destruct (find false marker (take (span not_gt s1) s1)) as [[a b]|] eqn:M;
      [|discriminate].
    destruct (strip_prefix false ">" (drop (span not_gt s1) s1)) as [s3|] eqn:Q;
      [|discriminate].
    destruct (find false "</div>" s3) as [[body post]|] eqn:F; [|discriminate].
    intros H. injection H as <-.
    exists (take (span not_gt s1) s1), body, post.
    apply strip_prefix_exact in P, Q.
    pose proof (find_split _ _ _ _ F) as Hs3.
    split; [|split; [|split; [|split]]].
    + rewrite P. f_equal. rewrite <- (take_drop (span not_gt s1) s1) at 1.
      f_equal. rewrite Q. f_equal. exact Hs3.
    + reflexivity.
    + apply span_take.
    + apply occurs_find. rewrite M. discriminate.
    + apply first_occurrence_find. now rewrite <- Hs3.
  - intros [attrs [body [post [Hs [He [Ha [Hm Hf]]]]]]].
    assert (P : strip_prefix false "<div" s
                = Some (attrs ++ ">" ++ body ++ "</div>" ++ post)).
    { rewrite Hs. apply strip_prefix_app. }
    rewrite P. cbv zeta.
    assert (N : span not_gt (attrs ++ ">" ++ body ++ "</div>" ++ post)
                = String.length attrs).
    { apply span_app; [exact Ha | reflexivity]. }
    rewrite N, take_app_length, drop_app_length.
    apply occurs_find in Hm.
    destruct (find false marker attrs) as [[a b]|]; [|congruence].
    rewrite (strip_prefix_app false ">").
    apply first_occurrence_find in Hf. rewrite Hf. now rewrite He.
Qed.

Lemma marked_div_at_head_prefix (e s : string) :
  marked_div_at_head s = Some e -> exists post, s = e ++ post.
Proof.
  intros H. apply marked_div_at_head_spec in H.
  destruct H as [attrs [body [post [Hs [He _]]]]].
  exists post. rewrite Hs, He. now rewrite !append_assoc.
Qed.

Lemma run_div_whole (i : nat) (s : string) :
  match run false divRegex i s None final with
  | Some (e, _) => Some (take (e - i) s)
  | None => None
  end = marked_div_at_head s.
Proof.
  pose proof (run_div i s) as H.
  destruct (run false divRegex i s None final) as [[e cap]|];
    destruct (marked_div_at_head s) as [e0|] eqn:M;
    cbn [option_map fst] in H; try discriminate; try reflexivity.
  injection H as ->.
  destruct (marked_div_at_head_prefix _ _ M) as [post Hp].
  replace (i + String.length e0 - i) with (String.length e0) by lia.
  rewrite Hp. now rewrite take_app_length.
Qed.

(** The pattern matches at the first place where an element starts, and
    the match is the element. *)
Lemma match_div (s : string) :
  option_map whole (str_match false divRegex s) = find_marked_div s.
Proof.
  unfold str_match. generalize 0 as i.
  induction s as [|c s IH]; intros i; cbn [exec_from find_marked_div];
    rewrite <- (run_div_whole i); unfold final;
    destruct (run false divRegex i _ None _) as [[e cap]|];
    try reflexivity.
  apply IH.
Qed.

Lemma find_marked_div_some (e s : string) :
  find_marked_div s = Some e <-> first_marked_div e s.
Proof.
  unfold first_marked_div. split.
  - induction s as [|c s IH]; cbn [find_marked_div].
    + destruct (marked_div_at_head EmptyString) as [e0|] eqn:M; [|discriminate].
      intros H. injection H as ->. exists EmptyString, EmptyString.
      repeat split; [now apply marked_div_at_head_spec | simpl; lia].
    + destruct (marked_div_at_head (String c s)) as [e0|] eqn:M.
      * intros H. injection H as ->. exists EmptyString, (String c s).
        repeat split; [now apply marked_div_at_head_spec | simpl; lia].
      * intros H. destruct (IH H) as [pre [rest [Hs [Hh Hmin]]]].
        exists (String c pre), rest. repeat split.
        -- simpl. now rewrite <- Hs.
        -- exact Hh.
        -- intros [|c' pre'] rest' e' Hs' Hh'.
           ++ simpl in Hs'. subst rest'.
              apply marked_div_at_head_spec in Hh'. congruence.
           ++ simpl in Hs'. injection Hs' as _ Hs'. simpl.
              apply le_n_S. exact (Hmin _ _ _ Hs' Hh').
  - intros [pre [rest [Hs [Hh Hmin]]]]. subst s.
    induction pre as [|c pre IH].
    + simpl. apply marked_div_at_head_spec in Hh.
      destruct rest; cbn [find_marked_div]; now rewrite Hh.
    + cbn [append find_marked_div].
      destruct (marked_div_at_head (String c (pre ++ rest))) as [e0|] eqn:M.
      * apply marked_div_at_head_spec in M.
        specialize (Hmin EmptyString _ _ eq_refl M). simpl in Hmin. lia.
      * apply IH. intros pre' rest' e' Hs' Hh'.
        specialize (Hmin (String c pre') rest' e').
        simpl in Hmin. rewrite Hs' in Hmin. specialize (Hmin eq_refl Hh'). lia.
Qed.

Lemma find_marked_div_none (s : string) :
  find_marked_div s = None <-> ~ has_marked_div s.
Proof.
  unfold has_marked_div. split.
  - induction s as [|c s IH]; cbn [find_marked_div].
    + destruct (marked_div_at_head EmptyString) eqn:M; [discriminate|].
      intros _ [pre [rest [e [Hs Hh]]]].
      destruct pre; [|discriminate]. simpl in Hs. subst rest.
      apply marked_div_at_head_spec in Hh. congruence.
    + destruct (marked_div_at_head (String c s)) eqn:M; [discriminate|].
      intros H [[|c' pre] [rest [e [Hs Hh]]]].
      * simpl in Hs. subst rest. apply marked_div_at_head_spec in Hh. congruence.
      * simpl in Hs. injection Hs as _ Hs. apply (IH H). eauto.
  - intros H. destruct (find_marked_div s) as [e|] eqn:F; [|reflexivity].
    exfalso. apply H. apply find_marked_div_some in F.
    destruct F as [pre [rest [Hs [Hh _]]]]. eauto.
Qed.

End PatternFacts.

(* ================================================================== *)
(** * The extraction of the diagram, the summary and the recommendations *)
(* ================================================================== *)

Module Extraction.
Import Str Spec Regex Patterns StrFacts RegexFacts PatternFacts AIService Examples.
Local Open Scope string_scope.

(** ** The diagram *)

Lemma extractHtmlContent_refines (content : string) :
  extractHtmlContent content =
  match fenced_block html_fence content with
  | Some inner => Some (trim inner)
  | None => find_marked_div content
  end.
Proof.
  unfold extractHtmlContent. cbv zeta.
  rewrite <- (match_fence_block html_fence content), <- (match_div content).
  change (fence_pattern html_fence) with htmlRegex.
  destruct (str_match false htmlRegex content) as [m|]; [reflexivity|].
  cbn [option_map].
  destruct (str_match false divRegex content); reflexivity.
Qed.

Lemma fenced_block_exists (opening s : string) :
  has_fenced_block opening s -> exists inner, is_fenced_block opening inner s.
Proof.
  intros H. destruct (fenced_block opening s) as [inner|] eqn:E.
  - exists inner. now apply fenced_block_some.
  - apply fenced_block_none in E. contradiction.
Qed.

Lemma fenced_block_unique (opening s inner inner' : string) :
  is_fenced_block opening inner s -> is_fenced_block opening inner' s ->
  inner = inner'.
Proof.
  intros H H'. apply fenced_block_some in H, H'. congruence.
Qed.

Lemma marked_div_exists (s : string) :
  has_marked_div s -> exists e, first_marked_div e s.
Proof.
  intros H. destruct (find_marked_div s) as [e|] eqn:E.
  - exists e. now apply find_marked_div_some.
  - apply find_marked_div_none in E. contradiction.
Qed.

(** A nested [div] ends the element at its own closing tag. *)
Lemma extractHtmlContent_nested :
  extractHtmlContent
    ("<div " ++ marker ++ "><div>a</div></div>")
  = Some ("<div " ++ marker ++ "><div>a</div>").
Proof. reflexivity. Qed.

(** ** The complete element and the text through the first closing tag *)

Lemma through_matching_close_flat :
  forall s inner post,
    find false "</div>" s = Some (inner, post) ->
    find false "<div" inner = None ->
    through_matching_close 0 s = Some (inner ++ "</div>").
Proof.
  induction s as [|c s IH]; intros inner post F N; [discriminate|].
  cbn [through_matching_close]. unfold closes_div.
  cbn [find] in F.
  destruct (strip_prefix false "</div>" (String c s)) as [p|] eqn:C.
  - injection F as <- <-. reflexivity.
  - destruct (find false "</div>" s) as [[pre q]|] eqn:F'; [|discriminate].
    injection F as <- <-.
    cbn [find] in N.
    destruct (strip_prefix false "<div" (String c pre)) eqn:P; [discriminate|].
    destruct (find false "<div" pre) as [[x y]|] eqn:N'; [discriminate|].
    assert (O : opens_div (String c s) = false).
    { unfold opens_div.
      destruct (strip_prefix false "<div" (String c s)) as [r|] eqn:R; [|reflexivity].
      exfalso. apply strip_prefix_exact in R.
      cbn [append] in R. injection R as -> ->.
      cbn [find strip_prefix] in F'. unfold char_eq in F'. cbn in F'.
      destruct (find false "</div>" r) as [[pre' q']|]; [|discriminate].
      injection F' as <- <-. cbn in P. discriminate. }
    rewrite O. rewrite (IH pre q eq_refl N'). reflexivity.
Qed.

Lemma through_matching_close_closes :
  forall s depth inner,
    through_matching_close depth s = Some inner ->
    find false "</div>" s <> None.
Proof.
  induction s as [|c s IH]; intros depth inner H; [discriminate|].
  cbn [through_matching_close] in H. unfold closes_div in H. cbn [find].
  destruct (strip_prefix false "</div>" (String c s)) as [p|]; [discriminate|].
  assert (T : exists d x, through_matching_close d s = Some x).
  { destruct (opens_div (String c s));
      [destruct (through_matching_close (S depth) s) eqn:E
      |destruct (through_matching_close depth s) eqn:E];
      try discriminate; eauto. }
  destruct T as [d [x T]]. apply IH in T.
  destruct (find false "</div>" s) as [[pre q]|]; [discriminate | contradiction].
Qed.

Lemma complete_div_at_head_marked (s e : string) :
  complete_div_at_head s = Some e -> marked_div_at_head s <> None.
Proof.
  unfold complete_div_at_head, marked_div_at_head.
  destruct (strip_prefix false "<div" s) as [s1|]; [|discriminate]. cbv zeta.
  destruct (find false marker (take (span not_gt s1) s1)); [|discriminate].
  destruct (strip_prefix false ">" (drop (span not_gt s1) s1)) as [s3|];
    [|discriminate].
  destruct (through_matching_close 0 s3) as [inner|] eqn:T; [|discriminate].
  intros _. apply through_matching_close_closes in T.
  destruct (find false "</div>" s3) as [[body q]|]; [discriminate | contradiction].
Qed.

Lemma complete_div_at_head_flat (s e : string) :
  marked_div_at_head s = Some e ->
  ~ occurs "<div" (drop 1 e) ->
  complete_div_at_head s = Some e.
Proof.
  unfold complete_div_at_head, marked_div_at_head.
  destruct (strip_prefix false "<div" s) as [s1|]; [|discriminate]. cbv zeta.
  destruct (find false marker (take (span not_gt s1) s1)); [|discriminate].
  destruct (strip_prefix false ">" (drop (span not_gt s1) s1)) as [s3|];
    [|discriminate].
  destruct (find false "</div>" s3) as [[body q]|] eqn:F; [|discriminate].
  intros E N. injection E as <-.
  rewrite (through_matching_close_flat s3 body q F); [reflexivity|].
  apply not_occurs_find. intros [x [y H]]. apply N.
  exists ("div" ++ take (span not_gt s1) s1 ++ ">" ++ x), (y ++ "</div>").
  unfold splits_at in *. rewrite H. cbn [append drop].
  now rewrite !append_assoc.
Qed.

(** Where the text through the first closing tag holds no second opening
    tag, it is the complete element. *)
Lemma find_complete_div_flat (s e : string) :
  find_marked_div s = Some e ->
  ~ occurs "<div" (drop 1 e) ->
  find_complete_div s = Some e.
Proof.
  intros F N. induction s as [|c s IH];
    cbn [find_marked_div find_complete_div] in *.
  - destruct (marked_div_at_head EmptyString) as [e0|] eqn:M; [|discriminate].
    injection F as ->. now rewrite (complete_div_at_head_flat _ _ M N).
  - destruct (marked_div_at_head (String c s)) as [e0|] eqn:M.
    + injection F as ->. now rewrite (complete_div_at_head_flat _ _ M N).
    + destruct (complete_div_at_head (String c s)) as [e1|] eqn:C.
      * apply complete_div_at_head_marked in C. contradiction.
      * now apply IH.
Qed.

(** C5, as the code has it. For every text: when it has a fenced block
    tagged html, the diagram is the interior of the first such block,
    trimmed; otherwise, when it has a [div] tag that carries the class
    marker and a closing [div] tag after it, the diagram is the text from
    the first such opening tag through the first closing [div] tag after
    it, which need not be the tag that closes the element; otherwise there
    is no diagram, which is a result and not an error: the response is
    parsed, with a null diagram. *)
Theorem extractHtmlContent_cases (content : string) :
  (has_fenced_block html_fence content ->
     exists inner, is_fenced_block html_fence inner content) /\
  (forall inner, is_fenced_block html_fence inner content ->
     extractHtmlContent content = Some (trim inner)) /\
  (~ has_fenced_block html_fence content -> has_marked_div content ->
     exists e, first_marked_div e content) /\
  (forall e, ~ has_fenced_block html_fence content -> first_marked_div e content ->
     extractHtmlContent content = Some e) /\
  (~ has_fenced_block html_fence content -> ~ has_marked_div content ->
     extractHtmlContent content = None) /\
  (~ has_fenced_block html_fence content -> ~ has_marked_div content ->
     content <> EmptyString ->
     forall tr,
       parseAIResponse
         (DataObject
            (mkData (Some [mkChoice (Some (mkMessage (ContentStr content)))]))) tr
       = (Effects.Returns
            {| rawContent := content;
               diagram := None;
               summary_of := extractTextSummary content |}, tr)).
Proof.
  assert (N : ~ has_fenced_block html_fence content -> ~ has_marked_div content ->
              extractHtmlContent content = None).
  { rewrite extractHtmlContent_refines. intros H Hd.
    apply fenced_block_none in H. rewrite H. now apply find_marked_div_none. }
  split; [apply fenced_block_exists|].
  split; [intros inner H; apply fenced_block_some in H;
          now rewrite extractHtmlContent_refines, H|].
  split; [intros _; apply marked_div_exists|].
  split; [|split; [exact N|]].
  - intros e H He. rewrite extractHtmlContent_refines.
    apply fenced_block_none in H. rewrite H. now apply find_marked_div_some.
  - intros H Hd Hc tr. unfold parseAIResponse.
    cbn [first_content choices message_of AIService.content content_truthy].
    destruct content as [|c content']; [congruence|].
    cbn [truthy negb]. now rewrite (N H Hd).
Qed.


(** C5 as stated fails for an element with elements nested in it. The
    text has no fenced block and is one complete element that carries the
    class marker; the diagram is not that element: it ends with the
    closing tag of the first nested element, and the second nested element
    and the closing tag of the diagram are left out. *)
Lemma extractHtmlContent_truncates_nested :
  ~ has_fenced_block html_fence nested_diagram /\
  has_marked_div nested_diagram /\
  find_complete_div nested_diagram = Some nested_diagram /\
  extractHtmlContent nested_diagram = Some ("<div " ++ marker ++ "><div>UI</div>") /\
  extractHtmlContent nested_diagram <> find_complete_div nested_diagram.
Proof.
  split; [apply fenced_block_none; reflexivity|].
  split.
  - exists EmptyString, nested_diagram, ("<div " ++ marker ++ "><div>UI</div>").
    split; [reflexivity|]. apply marked_div_at_head_spec. reflexivity.
  - split; [reflexivity|]. split; [reflexivity|]. discriminate.
Qed.

Lemma extractHtmlContent_cases_witness :
  extractHtmlContent scenario_A = Some "<div>X</div>" /\
  extractHtmlContent bare_diagram = Some ("<div id=x " ++ marker ++ "><p>A</p></div>") /\
  extractHtmlContent "No diagram here" = None.
Proof.
  split; [|split].
  - apply (proj1 (proj2 (extractHtmlContent_cases scenario_A))
             (nl ++ "<div>X</div>" ++ nl)).
    apply fenced_block_some. reflexivity.
  - apply (proj1 (proj2 (proj2 (proj2 (extractHtmlContent_cases bare_diagram))))).
    + apply fenced_block_none. reflexivity.
    + apply find_marked_div_some. reflexivity.
  - apply (proj1 (proj2 (proj2 (proj2 (proj2
             (extractHtmlContent_cases "No diagram here")))))).
    + apply fenced_block_none. reflexivity.
    + apply find_marked_div_none. reflexivity.
Defined.


(** ** The summary *)

Lemma hd_split_first_line (s : string) :
  hd EmptyString (split LF s) = first_line s.
Proof.
  unfold first_line. induction s as [|c s IH]; [reflexivity|].
  cbn [split find strip_prefix nl]. unfold char_eq. rewrite (Ascii.eqb_sym c LF).
  destruct (Ascii.eqb LF c) eqn:E; [reflexivity|].
  destruct (split LF s) as [|h t] eqn:S.
  - exfalso. destruct s; simpl in S; [discriminate|].
    destruct (Ascii.eqb a LF); [discriminate|].
    destruct (split LF s); discriminate.
  - cbn [hd] in *. rewrite IH.
    destruct (find false nl s) as [[line post]|]; reflexivity.
Qed.

Lemma extractTextSummary_refines (content : string) :
  extractTextSummary content =
  match fenced_block text_fence content with
  | Some inner => trim inner
  | None =>
      if truthy (first_line content) then first_line content
      else "Technical summary"
  end.
Proof.
  unfold extractTextSummary. cbv zeta.
  rewrite <- (match_fence_block text_fence content), hd_split_first_line.
  change (fence_pattern text_fence) with textRegex.
  destruct (str_match false textRegex content); reflexivity.
Qed.

(** C7, as the code has it. For every text: when it has a fenced block
    tagged text, the summary is the interior of the first such block,
    trimmed; otherwise the summary is the first line of the text when that
    line is not empty, and the literal [Technical summary] when it is
    empty, which covers the empty text. *)
Theorem extractTextSummary_cases (content : string) :
  (has_fenced_block text_fence content ->
     exists inner, is_fenced_block text_fence inner content) /\
  (forall inner, is_fenced_block text_fence inner content ->
     extractTextSummary content = trim inner) /\
  (~ has_fenced_block text_fence content -> first_line content <> EmptyString ->
     extractTextSummary content = first_line content) /\
  (~ has_fenced_block text_fence content -> first_line content = EmptyString ->
     extractTextSummary content = "Technical summary") /\
  (content = EmptyString -> extractTextSummary content = "Technical summary").
Proof.
  rewrite extractTextSummary_refines.
  split; [apply fenced_block_exists|].
  split; [intros inner H; apply fenced_block_some in H; now rewrite H|].
  split; [|split].
  - intros H Hl. apply fenced_block_none in H. rewrite H.
    destruct (first_line content); [congruence | reflexivity].
  - intros H Hl. apply fenced_block_none in H. rewrite H, Hl. reflexivity.
  - intros ->. reflexivity.
Qed.

Lemma extractTextSummary_cases_witness :
  extractTextSummary scenario_A = "Summary line" /\
  extractTextSummary ("First line" ++ nl ++ "second") = "First line" /\
  extractTextSummary (nl ++ "Hello") = "Technical summary" /\
  extractTextSummary EmptyString = "Technical summary".
Proof.
  split; [|split; [|split]].
  - apply (proj1 (proj2 (extractTextSummary_cases scenario_A))
             (nl ++ "Summary line" ++ nl)).
    apply fenced_block_some. reflexivity.
  - apply (proj1 (proj2 (proj2 (extractTextSummary_cases
                                  ("First line" ++ nl ++ "second"))))).
    + apply fenced_block_none. reflexivity.
    + discriminate.
  - apply (proj1 (proj2 (proj2 (proj2 (extractTextSummary_cases (nl ++ "Hello")))))).
    + apply fenced_block_none. reflexivity.
    + reflexivity.
  - apply (proj2 (proj2 (proj2 (proj2 (extractTextSummary_cases EmptyString))))).
    reflexivity.
Defined.

(** C7 as stated fails: a text that is not empty, has no fenced block and
    starts with a line feed has an empty first line, and its summary is the
    literal, not that line. *)
Lemma extractTextSummary_blank_first_line :
  let content := nl ++ "Hello" in
  content <> EmptyString /\
  ~ has_fenced_block text_fence content /\
  first_line content = EmptyString /\
  extractTextSummary content = "Technical summary" /\
  extractTextSummary content <> first_line content.
Proof.
  cbv zeta. split; [discriminate|]. split; [apply fenced_block_none; reflexivity|].
  split; [reflexivity|]. split; [reflexivity | discriminate].
Qed.

(** ** The recommendations *)

Lemma extractRecommendations_refines (content : string) :
  extractRecommendations content =
  match heading_run content with
  | Some run => recommendations_of_run run
  | None => getDefaultRecommendations
  end.
Proof.
  unfold extractRecommendations. pose proof (match_recs content) as H.
  destruct (str_match true recsRegex content) as [m|];
    destruct (heading_run content) as [run|]; cbn [option_map] in H;
    try discriminate; [|reflexivity].
  injection H as H. unfold capture1. rewrite H.
  unfold slice0, recommendations_of_run. f_equal.
  apply map_ext. intros r. now rewrite replace_marker.
Qed.

Lemma first_heading_find (pre h after s : string) :
  first_heading pre h after s -> find true heading_word s = Some (pre, after).
Proof.
  intros [Hs [Hh Hmin]].
  assert (P : strip_prefix true heading_word (drop (String.length pre) s) = Some after).
  { rewrite Hs, drop_app_length. apply strip_prefix_nocase. eauto. }
  destruct (find_complete _ _ _ _ _ P) as [pre' [after' [F L]]].
  destruct (find_split_nocase _ _ _ _ F) as [h' [Hs' Hh']].
  pose proof (Hmin _ _ _ Hs' Hh') as L'.
  rewrite Hs in Hs'.
  destruct (append_eq_length _ _ _ _ Hs') as [-> E]; [lia|].
  destruct (append_eq_length _ _ _ _ E) as [_ ->].
  - rewrite (same_letters_length _ _ Hh), (same_letters_length _ _ Hh').
    reflexivity.
  - exact F.
Qed.

Lemma heading_run_of (pre h after line below run content : string) :
  first_heading pre h after content -> heading_line line below after ->
  run_of run below -> heading_run content = Some run.
Proof.
  intros Hf [Ha [Hl Hb]] Hr. unfold heading_run.
  rewrite (first_heading_find _ _ _ _ Hf). cbv zeta.
  assert (N : span not_terminator after = String.length line).
  { rewrite Ha. apply span_app; [exact Hl|].
    destruct below as [|c below']; [exact I|].
    unfold not_terminator. now rewrite Hb. }
  rewrite N, Ha, drop_app_length.
  destruct Hr as [[post Hr]|[-> Hr]].
  - apply first_occurrence_find in Hr. now rewrite Hr.
  - apply not_occurs_find in Hr. now rewrite Hr.
Qed.

Lemma heading_run_none (content : string) :
  ~ has_heading content -> heading_run content = None.
Proof.
  intros H. unfold heading_run.
  destruct (find true heading_word content) as [[pre after]|] eqn:F;
    [|reflexivity].
  exfalso. apply H. destruct (find_split_nocase _ _ _ _ F) as [h [Hs Hh]].
  exists pre, h, after. auto.
Qed.

Lemma heading_run_none_inv (content : string) :
  heading_run content = None -> ~ has_heading content.
Proof.
  intros H [pre [h [after [Hs Hh]]]]. unfold heading_run in H.
  assert (P : strip_prefix true heading_word (drop (String.length pre) content)
              = Some after).
  { rewrite Hs, drop_app_length. apply strip_prefix_nocase. eauto. }
  destruct (find_complete _ _ _ _ _ P) as [pre' [after' [F _]]].
  rewrite F in H. cbv zeta in H.
  destruct (find false blank_line _) as [[r p]|]; discriminate.
Qed.

(** A text with the heading has a first heading, a heading line and a run. *)
Lemma heading_exists (content : string) :
  has_heading content ->
  exists pre h after line below run,
    first_heading pre h after content /\ heading_line line below after /\
    run_of run below.
Proof.
  intros [pre0 [h0 [after0 [Hs0 Hh0]]]].
  assert (P : strip_prefix true heading_word (drop (String.length pre0) content)
              = Some after0).
  { rewrite Hs0, drop_app_length. apply strip_prefix_nocase. eauto. }
  destruct (find_complete _ _ _ _ _ P) as [pre [after [F _]]].
  destruct (find_split_nocase _ _ _ _ F) as [h [Hs Hh]].
  exists pre, h, after,
    (take (span not_terminator after) after),
    (drop (span not_terminator after) after).
  assert (Hfirst : first_heading pre h after content).
  { split; [exact Hs|]. split; [exact Hh|].
    intros pre' h' after' Hs' Hh'.
    destruct (Nat.le_gt_cases (String.length pre) (String.length pre')) as [L|L];
      [exact L|].
    pose proof (find_first _ _ _ _ _ F _ L) as N.
    rewrite Hs', drop_app_length in N.
    assert (Q : strip_prefix true heading_word (h' ++ after') = Some after')
      by (apply strip_prefix_nocase; eauto).
    congruence. }
  assert (Hline : heading_line (take (span not_terminator after) after)
                    (drop (span not_terminator after) after) after).
  { split; [now rewrite take_drop|]. split; [apply span_take|].
    pose proof (span_stop not_terminator after) as St.
    destruct (drop (span not_terminator after) after); [exact I|].
    unfold not_terminator in St. now destruct (is_line_terminator a). }
  destruct (find false blank_line (drop (span not_terminator after) after))
    as [[run post]|] eqn:B.
  - exists run. repeat split; try assumption; try apply Hfirst; try apply Hline.
    left. exists post. now apply first_occurrence_find.
  - exists (drop (span not_terminator after) after).
    repeat split; try assumption; try apply Hfirst; try apply Hline.
    right. split; [reflexivity | now apply not_occurs_find].
Qed.


Lemma first_heading_of_find (pre h after s : string) :
  find true heading_word s = Some (pre, after) -> s = pre ++ h ++ after ->
  first_heading pre h after s.
Proof.
  intros F Hs. destruct (find_split_nocase _ _ _ _ F) as [h' [Hs' Hh']].
  assert (h = h').
  { rewrite Hs in Hs'. apply append_inv_head in Hs'.
    assert (L : String.length h = String.length h').
    { apply (f_equal String.length) in Hs'. rewrite !length_append in Hs'. lia. }
    now destruct (append_eq_length _ _ _ _ Hs' L). }
  subst h'. split; [exact Hs|]. split; [exact Hh'|].
  intros pre' h2 after' Hs2 Hh2.
  destruct (Nat.le_gt_cases (String.length pre) (String.length pre')) as [L|L];
    [exact L|].
  pose proof (find_first _ _ _ _ _ F _ L) as N.
  rewrite Hs2, drop_app_length in N.
  assert (Q : strip_prefix true heading_word (h2 ++ after') = Some after')
    by (apply strip_prefix_nocase; eauto).
  congruence.
Qed.

(** C6, as the code has it. For every text: the heading is looked for by
    its word as the pattern spells it, [Recommandation] with an optional
    [s], in any case. When the word is found, the run is the text below
    the heading line up to the first blank line or the end; it is split
    into lines, the lines that are empty or white space are dropped, a
    marker [- ] at the start of a line is stripped and the line trimmed,
    and at most the first three are kept. When the word is not found, the
    result is the three default recommendations, in the order
    documentation, tests, optimization. *)
Theorem extractRecommendations_cases (content : string) :
  (has_heading content ->
     exists pre h after line below run,
       first_heading pre h after content /\ heading_line line below after /\
       run_of run below) /\
  (forall pre h after line below run,
     first_heading pre h after content -> heading_line line below after ->
     run_of run below ->
     extractRecommendations content =
     firstn 3 (map (fun r => trim (strip_marker r))
                 (filter non_blank (split LF run)))) /\
  (~ has_heading content ->
     extractRecommendations content =
     [ "Documentation: Ajouter des commentaires pour les fonctions principales";
       "Tests: Implémenter des tests unitaires pour les modules critiques";
       "Optimisation: Analyser les performances des composants clés" ]).
Proof.
  rewrite extractRecommendations_refines.
  split; [apply heading_exists|]. split.
  - intros pre h after line below run Hf Hl Hr.
    now rewrite (heading_run_of _ _ _ _ _ _ _ Hf Hl Hr).
  - intros H. now rewrite (heading_run_none _ H).
Qed.

Lemma extractRecommendations_cases_witness :
  extractRecommendations french_report = ["Add tests"; "Write docs"] /\
  extractRecommendations scenario_A = getDefaultRecommendations.
Proof.
  split.
  - apply (proj1 (proj2 (extractRecommendations_cases french_report))
             ("Intro" ++ nl ++ "## ") "RECOMMANDATION"
             ("S :" ++ nl ++ "- Add tests" ++ nl ++ "  " ++ nl ++ "- Write docs"
                ++ nl ++ nl ++ "- Later")
             "S :"
             (nl ++ "- Add tests" ++ nl ++ "  " ++ nl ++ "- Write docs"
                ++ nl ++ nl ++ "- Later")
             (nl ++ "- Add tests" ++ nl ++ "  " ++ nl ++ "- Write docs")).
    + apply first_heading_of_find; reflexivity.
    + repeat split.
    + left. exists "- Later". apply first_occurrence_find. reflexivity.
  - apply (proj2 (proj2 (extractRecommendations_cases scenario_A))).
    apply heading_run_none_inv. reflexivity.
Defined.

(** C6 as stated fails: the English word [Recommendations] is not the
    heading of the pattern. A text with that heading and an item gets the
    defaults, and a text with the French heading, where the English word
    does not occur in any case, gets its own items. *)
Lemma extractRecommendations_english_heading :
  let english := "## Recommendations" ++ nl ++ "- Add tests" in
  let french := "## Recommandations" ++ nl ++ "- Add tests" in
  occurs "Recommendations" english /\
  extractRecommendations english = getDefaultRecommendations /\
  extractRecommendations english <> ["Add tests"] /\
  find true "Recommendations" french = None /\
  extractRecommendations french = ["Add tests"] /\
  extractRecommendations french <> getDefaultRecommendations.
Proof.
  cbv zeta. split; [apply occurs_find; vm_compute; discriminate|].
  split; [reflexivity|]. split; [vm_compute; discriminate|].
  split; [reflexivity|]. split; [reflexivity | vm_compute; discriminate].
Qed.




End Extraction.

(* ================================================================== *)
(** * The completion client and the orchestrator *)
(* ================================================================== *)

Module Client.
Import Str Spec Effects AIService ClientSpec Examples.
Local Open Scope string_scope.
Local Open Scope list_scope.

Lemma fetch_count_fetch (tr : list Event) (u p : string) :
  fetch_count (tr ++ [EvFetch u p]) = S (fetch_count tr).
Proof.
  unfold fetch_count. rewrite filter_app, length_app. simpl. lia.
Qed.

Lemma fetch_count_sleep (tr : list Event) (ms : Z) :
  fetch_count (tr ++ [EvSleep ms]) = fetch_count tr.
Proof.
  unfold fetch_count. rewrite filter_app, length_app. simpl. lia.
Qed.

Lemma parseAIResponse_pure (data : CompletionData) (tr : list Event) :
  parseAIResponse data tr = (parse_outcome data, tr).
Proof.
  unfold parse_outcome, parseAIResponse.
  destruct data as [| |o]; [reflexivity| |];
    (destruct (negb (content_truthy _)); [reflexivity|]);
    destruct (first_content _); reflexivity.
Qed.

Lemma parse_outcome_settles (data : CompletionData) :
  parse_outcome data <> OutOfFuel.
Proof.
  unfold parse_outcome, parseAIResponse.
  destruct data as [| |o]; [discriminate| |];
    (destruct (negb (content_truthy _)); [discriminate|]);
    destruct (first_content _); discriminate.
Qed.

Lemma settle_settles (svc : Service) (reply : Reply) :
  settle svc reply <> OutOfFuel.
Proof.
  unfold settle. destruct (timeout (config svc) <=? latency reply)%Z;
    [discriminate|].
  destruct (result reply) as [msg|ok status body]; [discriminate|].
  destruct ok; cbn [negb]; [|discriminate].
  destruct body; [discriminate | apply parse_outcome_settles].
Qed.

(** One turn of [fetchWithRetry]: the call, then the result of the attempt,
    or the test of the budget, the sleep and the next attempt. *)
Lemma fetchWithRetry_step (fuel : nat) (svc : Service) (world : World)
      (prompt : string) (attempt : nat) (tr : list Event) :
  fetchWithRetry (S fuel) svc world prompt attempt tr =
  let tr1 := tr ++ [EvFetch (url (config svc)) prompt] in
  match settle svc (world (S (fetch_count tr))) with
  | Throws e =>
      if (maxRetries (config svc) <=? attempt)%nat then (Throws e, tr1)
      else fetchWithRetry fuel svc world prompt (S attempt)
             (tr1 ++ [EvSleep (retryDelay (config svc) * Z.of_nat attempt)])
  | r => (r, tr1)
  end.
Proof.
  cbn [fetchWithRetry]. unfold try_catch, bind, fetch, settle, throw, sleep, emit.
  destruct (timeout (config svc) <=? latency (world (S (fetch_count tr))))%Z.
  - destruct (maxRetries (config svc) <=? attempt)%nat; reflexivity.
  - destruct (result (world (S (fetch_count tr)))) as [msg|ok status body].
    + destruct (maxRetries (config svc) <=? attempt)%nat; reflexivity.
    + destruct ok; cbn [negb].
      * destruct body as [msg|data]; unfold json, throw, ret.
        -- destruct (maxRetries (config svc) <=? attempt)%nat; reflexivity.
        -- rewrite parseAIResponse_pure.
           pose proof (parse_outcome_settles data) as N.
           destruct (parse_outcome data); try reflexivity.
           destruct (maxRetries (config svc) <=? attempt)%nat; reflexivity.
      * destruct (maxRetries (config svc) <=? attempt)%nat; reflexivity.
Qed.

Lemma fails_error (svc : Service) (reply : Reply) :
  fails svc reply = true -> exists e, settle svc reply = Throws e.
Proof.
  unfold fails. destruct (settle svc reply); try discriminate. eauto.
Qed.

Lemma network_failure_fails (svc : Service) (reply : Reply) :
  network_failure svc reply = true -> fails svc reply = true.
Proof.
  unfold network_failure, fails, settle.
  destruct (timeout (config svc) <=? latency reply)%Z; [reflexivity|].
  destruct (result reply) as [msg|ok status body]; [reflexivity|].
  cbn [orb]. intros ->. reflexivity.
Qed.

(** The error of a 2xx response in time whose body has no non-empty
    assistant message: the one of [response.json()], the one of the read of
    [null], or the one that [parseAIResponse] makes. *)
Lemma lacks_message_settle (svc : Service) (reply : Reply)
      (status : N) (body : Body) :
  (latency reply < timeout (config svc))%Z ->
  result reply = NetResponse true status body ->
  lacks_message body = true ->
  exists e,
    settle svc reply = Throws e /\
    match body with
    | BodyInvalid msg => e = RuntimeError "FetchError" msg
    | BodyJson DataNull => exists msg, e = RuntimeError "TypeError" msg
    | BodyJson _ => e = MkError "Invalid AI response format"
    end.
Proof.
  intros Ht Hr Hb. unfold settle.
  destruct (Z.leb_spec (timeout (config svc)) (latency reply)); [lia|].
  rewrite Hr. cbn [negb].
  destruct body as [msg|[| |o]]; cbn [lacks_message] in Hb.
  - eexists. split; reflexivity.
  - eexists. split; [reflexivity|]. eexists. reflexivity.
  - eexists. split; reflexivity.
  - unfold parse_outcome, parseAIResponse. rewrite Hb.
    eexists. split; reflexivity.
Qed.

Lemma malformed_fails (svc : Service) (reply : Reply) :
  malformed svc reply = true -> fails svc reply = true.
Proof.
  unfold malformed, fails. intros H.
  apply andb_prop in H as [Ht Hm]. apply negb_true_iff in Ht.
  apply Z.leb_gt in Ht.
  destruct (result reply) as [msg|ok status body] eqn:Hr; [discriminate|].
  destruct ok; [|discriminate].
  destruct (lacks_message_settle svc reply status body Ht Hr Hm) as [e [-> _]].
  reflexivity.
Qed.

(** With fuel for the attempts that remain, the client comes to an end. *)
Lemma fetchWithRetry_total (svc : Service) (world : World) (prompt : string) :
  forall fuel attempt tr,
    maxRetries (config svc) - attempt < fuel ->
    fst (fetchWithRetry fuel svc world prompt attempt tr) <> OutOfFuel.
Proof.
  induction fuel as [|fuel IH]; intros attempt tr L; [lia|].
  rewrite fetchWithRetry_step. cbv zeta.
  pose proof (settle_settles svc (world (S (fetch_count tr)))) as N.
  destruct (settle svc (world (S (fetch_count tr)))); try discriminate;
    [|congruence].
  destruct (Nat.leb_spec (maxRetries (config svc)) attempt); [discriminate|].
  apply IH. lia.
Qed.

(** When the attempts [a .. a + k] all fail and [a + k] is the last of the
    budget, the client makes them all, sleeps in between, and throws the
    error of the last one. *)
Lemma fetchWithRetry_all_fail (svc : Service) (world : World) (prompt : string)
      (e : Error) :
  forall k fuel a tr,
    k < fuel -> 1 <= a ->
    a + k = Nat.max 1 (maxRetries (config svc)) ->
    fetch_count tr = a - 1 ->
    (forall n, a <= n <= a + k -> fails svc (world n) = true) ->
    error_of svc (world (a + k)) = Some e ->
    fetchWithRetry fuel svc world prompt a tr =
    (Throws e,
     tr ++ backoff_trace (url (config svc)) prompt (retryDelay (config svc)) a k).
Proof.
  induction k as [|k IH]; intros fuel a tr Lf La Hm Hc Hfail He;
    (destruct fuel as [|fuel]; [lia|]); rewrite fetchWithRetry_step; cbv zeta;
    replace (S (fetch_count tr)) with a by lia.
  - rewrite Nat.add_0_r in *. unfold error_of in He.
    destruct (settle svc (world a)); try discriminate. injection He as ->.
    destruct (Nat.leb_spec (maxRetries (config svc)) a); [reflexivity | lia].
  - destruct (fails_error _ _ (Hfail a ltac:(lia))) as [e' ->].
    destruct (Nat.leb_spec (maxRetries (config svc)) a); [lia|].
    rewrite (IH fuel (S a)); try lia.
    + cbn [backoff_trace]. rewrite <- !app_assoc. reflexivity.
    + rewrite fetch_count_sleep, fetch_count_fetch. lia.
    + intros n Hn. apply Hfail. lia.
    + now replace (S a + k) with (a + S k) by lia.
Qed.

Lemma backoff_trace_fetches (u p : string) (d : Z) :
  forall k a, fetch_count (backoff_trace u p d a k) = S k.
Proof.
  induction k as [|k IH]; intros a; [reflexivity|].
  cbn [backoff_trace]. unfold fetch_count in *. cbn [filter is_fetch List.length].
  now rewrite IH.
Qed.

Lemma backoff_trace_sleeps (u p : string) (d : Z) :
  forall k a,
    sleeps (backoff_trace u p d a k) = map (fun n => (d * Z.of_nat n)%Z) (seq a k).
Proof.
  induction k as [|k IH]; intros a; [reflexivity|].
  cbn [backoff_trace seq map]. unfold sleeps in *. cbn [flat_map app].
  now rewrite IH.
Qed.

(** C3. For every configuration with [m >= 1] attempts and base delay [d],
    when every attempt fails (status not 2xx, transport error, abort by
    the timer of the attempt, or any other error of the attempt), the
    client makes the calls [1 .. m] and no other, sleeps [d * n] between
    attempt [n] and attempt [n + 1], and throws the error of attempt [m]. *)
Theorem fetchWithRetry_exhausts (svc : Service) (world : World) (prompt : string)
        (fuel : nat) (e : Error) :
  let m := maxRetries (config svc) in
  let d := retryDelay (config svc) in
  1 <= m -> m <= fuel ->
  (forall n, 1 <= n <= m -> fails svc (world n) = true) ->
  error_of svc (world m) = Some e ->
  exists tr,
    fetchWithRetry fuel svc world prompt 1 [] = (Throws e, tr) /\
    tr = backoff_trace (url (config svc)) prompt d 1 (m - 1) /\
    fetch_count tr = m /\
    sleeps tr = map (fun n => (d * Z.of_nat n)%Z) (seq 1 (m - 1)).
Proof.
  cbv zeta. intros Lm Lf Hfail He.
  set (m := maxRetries (config svc)) in *.
  exists (backoff_trace (url (config svc)) prompt (retryDelay (config svc)) 1 (m - 1)).
  split; [|split; [reflexivity|split]].
  - replace m with (1 + (m - 1)) in He, Hfail by lia.
    rewrite (fetchWithRetry_all_fail svc world prompt e (m - 1) fuel 1 [] );
      try reflexivity; try lia; try assumption.
  - rewrite backoff_trace_fetches. lia.
  - apply backoff_trace_sleeps.
Qed.

Lemma fetchWithRetry_exhausts_witness :
  exists tr,
    fetchWithRetry 3 service (always server_error) "prompt" 1 [] =
    (Throws (MkError "API request failed with status 500"), tr) /\
    tr = backoff_trace (url DEFAULT_CONFIG) "prompt" 1000 1 2 /\
    fetch_count tr = 3 /\
    sleeps tr = [1000; 2000]%Z.
Proof.
  apply (fetchWithRetry_exhausts service (always server_error) "prompt" 3
           (MkError "API request failed with status 500")).
  - simpl. lia.
  - simpl. lia.
  - intros n _. reflexivity.
  - reflexivity.
Defined.


(** Whatever the world answers, the client makes at most [maxRetries]
    calls, and one call when [maxRetries] is below one. *)
Lemma fetchWithRetry_bounded (svc : Service) (world : World) (prompt : string) :
  forall fuel attempt tr,
    fetch_count (snd (fetchWithRetry fuel svc world prompt attempt tr))
    <= fetch_count tr + S (maxRetries (config svc) - attempt).
Proof.
  induction fuel as [|fuel IH]; intros attempt tr; [simpl; lia|].
  rewrite fetchWithRetry_step. cbv zeta.
  destruct (settle svc (world (S (fetch_count tr))));
    try (cbn [snd]; rewrite fetch_count_fetch; lia).
  destruct (Nat.leb_spec (maxRetries (config svc)) attempt).
  - cbn [snd]. rewrite fetch_count_fetch. lia.
  - specialize (IH (S attempt)
                  ((tr ++ [EvFetch (url (config svc)) prompt])
                     ++ [EvSleep (retryDelay (config svc) * Z.of_nat attempt)])).
    rewrite fetch_count_sleep, fetch_count_fetch in IH. lia.
Qed.

(** C2, as the code has it. A 2xx response in time whose body has no
    non-empty assistant message is a failed attempt like any other. An
    error is thrown inside the [try] block: the error of [response.json()]
    when the body is not JSON, a TypeError when the body is [null], whose
    property [choices] cannot be read, and [Invalid AI response format] for
    every other body. So with attempts left the client sleeps and calls
    again, and the error is signalled only when the attempt was the last
    of the budget. *)
Theorem malformed_response_is_retried (svc : Service) (world : World)
        (prompt : string) (fuel attempt : nat) (tr : list Event)
        (status : N) (body : Body) :
  let reply := world (S (fetch_count tr)) in
  (latency reply < timeout (config svc))%Z ->
  result reply = NetResponse true status body ->
  lacks_message body = true ->
  exists e,
    match body with
    | BodyInvalid msg => e = RuntimeError "FetchError" msg
    | BodyJson DataNull => exists msg, e = RuntimeError "TypeError" msg
    | BodyJson _ => e = MkError "Invalid AI response format"
    end /\
    fetchWithRetry (S fuel) svc world prompt attempt tr =
    if (maxRetries (config svc) <=? attempt)%nat
    then (Throws e, tr ++ [EvFetch (url (config svc)) prompt])
    else fetchWithRetry fuel svc world prompt (S attempt)
           (tr ++ [EvFetch (url (config svc)) prompt;
                   EvSleep (retryDelay (config svc) * Z.of_nat attempt)]).
Proof.
  cbv zeta. intros Ht Hr Hb.
  destruct (lacks_message_settle svc _ status body Ht Hr Hb) as [e [He Hk]].
  exists e. split; [exact Hk|].
  rewrite fetchWithRetry_step, He. cbv zeta.
  destruct (maxRetries (config svc) <=? attempt)%nat; [reflexivity|].
  now rewrite <- app_assoc.
Qed.

Lemma malformed_response_is_retried_witness :
  (exists e,
      e = MkError "Invalid AI response format" /\
      fetchWithRetry 4 service malformed_once "prompt" 1 [] =
      fetchWithRetry 3 service malformed_once "prompt" 2
        [EvFetch (url DEFAULT_CONFIG) "prompt"; EvSleep 1000]) /\
  (exists e,
      (exists msg, e = RuntimeError "TypeError" msg) /\
      fetchWithRetry 1 single_attempt (always null_body) "prompt" 1 [] =
      (Throws e, [EvFetch (url DEFAULT_CONFIG) "prompt"])).
Proof.
  split.
  - apply (malformed_response_is_retried service malformed_once "prompt" 3 1 []
             200%N (BodyJson (DataObject (mkData (Some []))))).
    + simpl. lia.
    + reflexivity.
    + reflexivity.
  - apply (malformed_response_is_retried single_attempt
             (always null_body) "prompt" 0 1 [] 200%N (BodyJson DataNull)).
    + simpl. lia.
    + reflexivity.
    + reflexivity.
Defined.

(** C2 as stated fails: with three attempts allowed and a first response
    that is 2xx and malformed, the client does not signal a failure: it
    sleeps, calls a second time and returns the analysis of the second
    response. *)
Lemma malformed_response_second_attempt :
  malformed service (malformed_once 1) = true /\
  exists a tr,
    fetchWithRetry 4 service malformed_once "prompt" 1 [] = (Returns a, tr) /\
    fetch_count tr = 2 /\ sleeps tr = [1000%Z] /\
    diagram a = Some "<div>X</div>".
Proof.
  split; [reflexivity|]. eexists. eexists.
  split; [vm_compute; reflexivity|]. repeat split.
Qed.

(** ** The orchestrator *)

Lemma analyzeRepository_run (fuel : nat) (svc : Service) (world : World)
      (repoInfo : JsValue) (tr : list Event) :
  analyzeRepository fuel svc world repoInfo tr =
  if negb (key_configured svc)
  then (Returns (generateFallbackResponse
                   (MkError "DeepSeek API key not configured")), tr)
  else if negb (valid_repoInfo repoInfo)
  then (Returns (generateFallbackResponse
                   (MkError "Invalid repository information")), tr)
  else match fetchWithRetry fuel svc world (prompt_of repoInfo) 1 tr with
       | (Returns a, tr') => (Returns (formatAnalysisResults a), tr')
       | (Throws e, tr') => (Returns (generateFallbackResponse e), tr')
       | (OutOfFuel, tr') => (OutOfFuel, tr')
       end.
Proof.
  unfold analyzeRepository, try_catch, bind, validateApiKey, key_configured.
  destruct (apiKey svc) as [k|]; [|reflexivity].
  destruct (truthy k); [|reflexivity]. cbn [negb ret].
  destruct repoInfo as [| |b|n|t|o]; try reflexivity;
    try (unfold validateRepoInfo; cbn [typeof_is_object negb];
         rewrite Bool.orb_true_r; reflexivity).
  cbn [validateRepoInfo js_truthy typeof_is_object negb orb valid_repoInfo
       prompt_of ret].
  destruct (fetchWithRetry fuel svc world (buildAnalysisPrompt o) 1 tr)
    as [[a|e|] tr']; reflexivity.
Qed.

Lemma generateFallbackDiagram_nonempty (msg : string) :
  generateFallbackDiagram msg <> EmptyString.
Proof. discriminate. Qed.

Lemma wrapDiagram_nonempty (d : option string) : wrapDiagram d <> EmptyString.
Proof.
  unfold wrapDiagram. destruct d as [c|]; [|discriminate].
  destruct (negb (truthy c)); discriminate.
Qed.

(** C4, as the code has it. For every value passed as metadata and every
    failure inside [analyzeRepository] (no credential, a value that is not
    an object, every attempt of the client failing, by the network, by a
    malformed body or by an error of the extraction), the call does not
    throw: it returns the fallback result of the error, whose summary
    states the message of the error, whose diagram is the warning panel
    with that message, not empty, whose recommendations are the fixed
    three, and whose [diagramSource] is false. *)
Theorem analyzeRepository_never_throws (svc : Service) (world : World)
        (repoInfo : JsValue) :
  let run := analyzeRepository (enough_fuel svc) svc world repoInfo [] in
  (exists r, fst run = Returns r) /\
  (forall e, failure svc world repoInfo e ->
             fst run = Returns (generateFallbackResponse e)) /\
  (forall e,
      summary (generateFallbackResponse e) = ("Analysis failed: " ++ message e)%string /\
      htmlSchema (generateFallbackResponse e) = generateFallbackDiagram (message e) /\
      htmlSchema (generateFallbackResponse e) <> EmptyString /\
      recommendations (generateFallbackResponse e) =
        [ "Verify API configuration";
          "Check repository accessibility";
          "Retry analysis later" ] /\
      diagramSource (generateFallbackResponse e) = false).
Proof.
  cbv zeta. rewrite analyzeRepository_run. split; [|split].
  - destruct (negb (key_configured svc)); [simpl; eauto|].
    destruct (negb (valid_repoInfo repoInfo)); [simpl; eauto|].
    assert (T : fst (fetchWithRetry (enough_fuel svc) svc world
                       (prompt_of repoInfo) 1 []) <> OutOfFuel).
    { apply fetchWithRetry_total. unfold enough_fuel. lia. }
    destruct (fetchWithRetry (enough_fuel svc) svc world (prompt_of repoInfo) 1 [])
      as [[a|e|] tr']; simpl in *; eauto.
    congruence.
  - intros e [Hk|Hk Hv|e' Hk Hv Hfail He].
    + now rewrite Hk.
    + now rewrite Hk, Hv.
    + rewrite Hk, Hv. cbn [negb].
      rewrite (fetchWithRetry_all_fail svc world (prompt_of repoInfo) e'
                 (Nat.max 1 (maxRetries (config svc)) - 1) (enough_fuel svc) 1 []).
      * reflexivity.
      * unfold enough_fuel. lia.
      * lia.
      * lia.
      * reflexivity.
      * intros n Hn. apply Hfail. lia.
      * now replace (1 + (Nat.max 1 (maxRetries (config svc)) - 1))
          with (Nat.max 1 (maxRetries (config svc))) by lia.
  - intros e. repeat split. apply generateFallbackDiagram_nonempty.
Qed.

Lemma analyzeRepository_never_throws_witness :
  fst (analyzeRepository (enough_fuel no_credential) no_credential
         (always server_error) some_repo [])
  = Returns (generateFallbackResponse (MkError "DeepSeek API key not configured"))
  /\
  fst (analyzeRepository (enough_fuel service) service
         (always server_error) some_repo [])
  = Returns (generateFallbackResponse
               (MkError "API request failed with status 500")).
Proof.
  split.
  - apply (proj1 (proj2 (analyzeRepository_never_throws no_credential
                           (always server_error) some_repo))).
    apply missing_credential. reflexivity.
  - apply (proj1 (proj2 (analyzeRepository_never_throws service
                           (always server_error) some_repo))).
    apply attempts_exhausted; try reflexivity.
Defined.

(** Every result handed to the view has a diagram panel that is not empty. *)
Lemma analyzeRepository_htmlSchema (fuel : nat) (svc : Service) (world : World)
      (repoInfo : JsValue) (tr : list Event) :
  match fst (analyzeRepository fuel svc world repoInfo tr) with
  | Returns r => htmlSchema r <> EmptyString
  | _ => True
  end.
Proof.
  rewrite analyzeRepository_run.
  destruct (negb (key_configured svc));
    [apply generateFallbackDiagram_nonempty|].
  destruct (negb (valid_repoInfo repoInfo));
    [apply generateFallbackDiagram_nonempty|].
  destruct (fetchWithRetry fuel svc world (prompt_of repoInfo) 1 tr)
    as [[a|e|] tr']; cbn [fst].
  - apply wrapDiagram_nonempty.
  - apply generateFallbackDiagram_nonempty.
  - exact I.
Qed.

(** C1. The code does not do what the claim says: a successful analysis
    of a response without any diagram carries the fallback panel as its
    diagram and [diagramSource] set to true. *)
Theorem diagramSource_true_on_fallback_panel :
  exists r tr,
    analyzeRepository (enough_fuel service) service
      (always (completion "Nothing to draw.")) some_repo [] = (Returns r, tr) /\
    fetch_count tr = 1 /\
    htmlSchema r = generateFallbackDiagram "No architecture diagram generated" /\
    diagramSource r = true.
Proof.
  eexists. eexists. split; [vm_compute; reflexivity|]. repeat split.
Qed.

(** [diagramSource] is a constant of the success path. *)
Lemma formatAnalysisResults_diagramSource (analysis : Analysis) :
  diagramSource (formatAnalysisResults analysis) = true /\
  (diagram analysis = None ->
   htmlSchema (formatAnalysisResults analysis)
   = generateFallbackDiagram "No architecture diagram generated").
Proof.
  split; [reflexivity|]. intros H. cbn. now rewrite H.
Qed.

(** C8. The list of recommendations has at most three entries, whether it
    is extracted below a heading, the defaults, or the fallback of a
    failed analysis; so has the result of every analysis. *)
Theorem recommendations_at_most_three :
  (forall content, List.length (extractRecommendations content) <= 3) /\
  List.length getDefaultRecommendations = 3 /\
  List.length getFallbackRecommendations = 3 /\
  (forall fuel svc world repoInfo tr,
      match fst (analyzeRepository fuel svc world repoInfo tr) with
      | Returns r => List.length (recommendations r) <= 3
      | _ => True
      end).
Proof.
  assert (E : forall content, List.length (extractRecommendations content) <= 3).
  { intros content. unfold extractRecommendations.
    destruct (Regex.str_match true recsRegex content); [|simpl; lia].
    unfold slice0. rewrite length_firstn. lia. }
  split; [exact E|]. split; [reflexivity|]. split; [reflexivity|].
  intros fuel svc world repoInfo tr. rewrite analyzeRepository_run.
  destruct (negb (key_configured svc)); [simpl; lia|].
  destruct (negb (valid_repoInfo repoInfo)); [simpl; lia|].
  destruct (fetchWithRetry fuel svc world (prompt_of repoInfo) 1 tr)
    as [[a|e|] tr']; cbn [fst]; [apply E | simpl; lia | exact I].
Qed.

End Client.

(* ================================================================== *)
(** * The metadata client and the controller *)
(* ================================================================== *)

Module Metadata.
Import Str Effects GitHubService Examples.
Local Open Scope string_scope.

(** The number of tenths is the nearest to ten times the quotient, the
    larger one on a tie. *)
Lemma tenths_div1024_nearest (n : Z) :
  (0 <= n)%Z ->
  (2048 * tenths_div1024 n - 1024 <= 20 * n < 2048 * tenths_div1024 n + 1024)%Z.
Proof.
  intros H. unfold tenths_div1024. rewrite Z.abs_eq by exact H.
  pose proof (Z.div_mod (20 * n + 1024) 2048 ltac:(lia)) as D.
  pose proof (Z.mod_pos_bound (20 * n + 1024) 2048 ltac:(lia)) as B.
  lia.
Qed.

(** C9, as the code has it. For every repository object of the upstream
    that has an owner and a size that is not negative, [formatRepoData]
    returns an object in which: the size is the upstream number divided by
    1024, rounded to the nearest tenth (the larger one on a tie), printed
    with one decimal and followed by the unit [MB]; the license is the
    identifier of the upstream license, and absent when the upstream has
    no license; the topics are those of the upstream, and the empty list
    when the upstream has none; the two dates are the upstream dates
    printed by the host as locale dates. *)
Theorem formatRepoData_normalizes (toLocaleDateString : string -> string)
        (data : RepoData) (o : Owner) :
  d_owner data = Some o -> (0 <= d_size data)%Z ->
  exists r,
    formatRepoData toLocaleDateString data = Returns r /\
    (exists t,
        (2048 * t - 1024 <= 20 * d_size data < 2048 * t + 1024)%Z /\
        size r = show_Z (t / 10) ++ "." ++ show_Z (t mod 10) ++ " MB") /\
    (d_license data = None -> license r = None) /\
    (forall l, d_license data = Some l -> license r = spdx_id l) /\
    (d_topics data = None -> topics r = []) /\
    (forall t, d_topics data = Some t -> topics r = t) /\
    createdAt r = toLocaleDateString (d_created_at data) /\
    updatedAt r = toLocaleDateString (d_updated_at data).
Proof.
  intros Ho Hs. unfold formatRepoData. rewrite Ho. eexists. split; [reflexivity|].
  cbn [size license topics createdAt updatedAt].
  split; [|split; [|split; [|split; [|split; [|split]]]]].
  - exists (tenths_div1024 (d_size data)).
    split; [now apply tenths_div1024_nearest|].
    unfold toFixed1_div1024. cbv zeta.
    destruct (Z.ltb_spec (d_size data) 0); [lia|].
    cbn [append]. now rewrite !StrFacts.append_assoc.
  - now intros ->.
  - now intros l ->.
  - now intros ->.
  - now intros t ->.
  - reflexivity.
  - reflexivity.
Qed.

Lemma formatRepoData_normalizes_witness :
  exists r,
    formatRepoData plain_date upstream_repo = Returns r /\
    (exists t,
        (2048 * t - 1024 <= 20 * 2048 < 2048 * t + 1024)%Z /\
        size r = show_Z (t / 10) ++ "." ++ show_Z (t mod 10) ++ " MB") /\
    (d_license upstream_repo = None -> license r = None) /\
    (forall l, d_license upstream_repo = Some l -> license r = spdx_id l) /\
    (d_topics upstream_repo = None -> topics r = []) /\
    (forall t, d_topics upstream_repo = Some t -> topics r = t) /\
    createdAt r = "2025-05-01T10:00:00Z" /\
    updatedAt r = "2025-06-01T10:00:00Z".
Proof.
  apply (formatRepoData_normalizes plain_date upstream_repo
           (mkOwner "devnetworking")).
  - reflexivity.
  - simpl. lia.
Defined.

(** C9 as stated fails: the size of the output is a text in megabytes, not
    a number of KiB: the upstream size 2048 becomes [2.0 MB]. *)
Lemma formatRepoData_size_in_MB :
  exists r,
    formatRepoData plain_date upstream_repo = Returns r /\
    size r = "2.0 MB" /\
    size r <> toFixed1_div1024 2048 ++ " KiB" /\
    size r <> toFixed1_div1024 2048.
Proof.
  eexists. split; [reflexivity|]. split; [reflexivity|].
  split; vm_compute; discriminate.
Qed.

End Metadata.

Module Controller.
Import Str Effects AIService ClientSpec RepoController Examples.
Local Open Scope string_scope.

(** C4 as stated fails for an error of the metadata fetch: it is raised in
    the controller before [analyzeRepository] is called, no completion is
    requested, and the page gets the fallback of the controller, whose
    summary does not state the reason and whose recommendations are three
    other lines; [diagramSource] is not set. *)
Lemma metadata_error_handled_by_controller :
  exists v,
    inspectRepository plain_date (enough_fuel service) service
      (always (completion scenario_A)) not_found "octo" "missing" []
    = (Returns v, []) /\
    v_summary (analysis v) = "Une erreur est survenue" /\
    v_htmlSchema (analysis v) = generateFallbackDiagram "Dépôt non trouvé" /\
    v_recommendations (analysis v) =
      [ "Actualiser la page"; "Vérifier le nom du dépôt"; "Contacter le support" ] /\
    v_recommendations (analysis v) <> getFallbackRecommendations /\
    v_diagramSource (analysis v) = None.
Proof.
  eexists. split; [reflexivity|]. repeat split. discriminate.
Qed.

End Controller.

(* ================================================================== *)
(** * More of the completion client and the orchestrator *)
(* ================================================================== *)

Module ClientCoverage.
Import Str Spec Effects AIService ClientSpec Coverage Examples Client.
Local Open Scope string_scope.
Local Open Scope list_scope.

Lemma answers_settle (svc : Service) (reply : Reply) (c : string) :
  answers svc reply c -> settle svc reply = Returns (analysis_of c).
Proof.
  intros [Ht [Hc [status [data [Hr Hd]]]]]. unfold settle.
  destruct (Z.leb_spec (timeout (config svc)) (latency reply)); [lia|].
  rewrite Hr. cbn [negb]. unfold parse_outcome, parseAIResponse.
  destruct data as [| |o]; try discriminate.
  rewrite Hd. cbn [content_truthy].
  destruct c; [congruence | reflexivity].
Qed.

(** When the attempts before [a + k] fail and attempt [a + k], within the
    budget, ends with [r], the client makes the calls up to it, sleeps in
    between, and ends with [r]. *)
Lemma fetchWithRetry_first_success (svc : Service) (world : World)
      (prompt : string) (x : Analysis) :
  forall k fuel a tr,
    k < fuel -> 1 <= a ->
    a + k <= Nat.max 1 (maxRetries (config svc)) ->
    fetch_count tr = a - 1 ->
    (forall n, a <= n < a + k -> fails svc (world n) = true) ->
    settle svc (world (a + k)) = Returns x ->
    fetchWithRetry fuel svc world prompt a tr =
    (Returns x,
     tr ++ backoff_trace (url (config svc)) prompt (retryDelay (config svc)) a k).
Proof.
  induction k as [|k IH]; intros fuel a tr Lf La Hm Hc Hfail Hx;
    (destruct fuel as [|fuel]; [lia|]); rewrite fetchWithRetry_step; cbv zeta;
    replace (S (fetch_count tr)) with a by lia.
  - rewrite Nat.add_0_r in Hx. rewrite Hx. reflexivity.
  - destruct (fails_error _ _ (Hfail a ltac:(lia))) as [e' ->].
    destruct (Nat.leb_spec (maxRetries (config svc)) a); [lia|].
    rewrite (IH fuel (S a)); try lia.
    + cbn [backoff_trace]. rewrite <- !app_assoc. reflexivity.
    + rewrite fetch_count_sleep, fetch_count_fetch. lia.
    + intros n Hn. apply Hfail. lia.
    + now replace (S a + k) with (a + S k) by lia.
Qed.

(** X1. Whatever the completion API answers, and however much fuel the
    model is given, a run of the client from attempt 1 makes at most
    [maxRetries] calls of [fetch], and one call when [maxRetries] is
    below one. *)
Theorem fetchWithRetry_call_budget (svc : Service) (world : World)
        (prompt : string) (fuel : nat) :
  fetch_count (snd (fetchWithRetry fuel svc world prompt 1 []))
  <= Nat.max 1 (maxRetries (config svc)).
Proof.
  pose proof (fetchWithRetry_bounded svc world prompt fuel 1 []) as H.
  cbn [fetch_count filter List.length] in H. unfold fetch_count in *. lia.
Qed.

(** X2. When the attempts before the [k]-th fail and the [k]-th, within
    the budget, succeeds, the client returns the analysis of the [k]-th
    response after exactly [k] calls, having slept [d * n] after each
    failed attempt [n]; a first attempt that succeeds costs one call and
    no sleep. *)
Theorem fetchWithRetry_succeeds_at (svc : Service) (world : World)
        (prompt : string) (fuel k : nat) (x : Analysis) :
  1 <= k <= Nat.max 1 (maxRetries (config svc)) -> k <= fuel ->
  (forall n, 1 <= n < k -> fails svc (world n) = true) ->
  settle svc (world k) = Returns x ->
  exists tr,
    fetchWithRetry fuel svc world prompt 1 [] = (Returns x, tr) /\
    fetch_count tr = k /\
    sleeps tr = map (fun n => (retryDelay (config svc) * Z.of_nat n)%Z)
                    (seq 1 (k - 1)) /\
    (k = 1 -> tr = [EvFetch (url (config svc)) prompt]).
Proof.
  intros Lk Lf Hfail Hx.
  exists (backoff_trace (url (config svc)) prompt (retryDelay (config svc)) 1 (k - 1)).
  split; [|split; [|split]].
  - replace k with (1 + (k - 1)) in Hx, Hfail by lia.
    rewrite (fetchWithRetry_first_success svc world prompt x (k - 1) fuel 1 []);
      try reflexivity; try lia; try assumption.
  - rewrite backoff_trace_fetches. lia.
  - apply backoff_trace_sleeps.
  - intros ->. reflexivity.
Qed.

Lemma fetchWithRetry_succeeds_at_witness :
  exists tr,
    fetchWithRetry 3 service malformed_once "prompt" 1 [] =
    (Returns (analysis_of scenario_A), tr) /\
    fetch_count tr = 2 /\
    sleeps tr = [1000%Z] /\
    (2 = 1 -> tr = [EvFetch (url DEFAULT_CONFIG) "prompt"]).
Proof.
  apply (fetchWithRetry_succeeds_at service malformed_once "prompt" 3 2
           (analysis_of scenario_A)).
  - simpl. lia.
  - lia.
  - intros n Hn. assert (n = 1) by lia. subst n. reflexivity.
  - reflexivity.
Defined.

(** The trace of the client grows by calls of the configured URL with the
    prompt and by sleeps of the base delay times an attempt number. *)
Lemma fetchWithRetry_trace (svc : Service) (world : World) (prompt : string) :
  forall fuel attempt tr,
  exists ext,
    snd (fetchWithRetry fuel svc world prompt attempt tr) = tr ++ ext /\
    Forall (client_event svc prompt attempt) ext.
Proof.
  induction fuel as [|fuel IH]; intros attempt tr.
  - exists []. split; [simpl; now rewrite app_nil_r | constructor].
  - rewrite fetchWithRetry_step. cbv zeta.
    assert (One : Forall (client_event svc prompt attempt)
                    [EvFetch (url (config svc)) prompt]).
    { constructor; [now left | constructor]. }
    destruct (settle svc (world (S (fetch_count tr))));
      try (eexists; split; [reflexivity | exact One]).
    destruct (Nat.leb_spec (maxRetries (config svc)) attempt);
      [eexists; split; [reflexivity | exact One]|].
    destruct (IH (S attempt)
                ((tr ++ [EvFetch (url (config svc)) prompt])
                   ++ [EvSleep (retryDelay (config svc) * Z.of_nat attempt)]))
      as [ext [E F]].
    exists (EvFetch (url (config svc)) prompt
            :: EvSleep (retryDelay (config svc) * Z.of_nat attempt) :: ext).
    split.
    + rewrite E, <- !app_assoc. reflexivity.
    + constructor; [now left|]. constructor.
      * right. exists attempt. split; [lia | reflexivity].
      * eapply Forall_impl; [|exact F].
        intros ev [He|[n [Hn He]]]; [now left|].
        right. exists n. split; [lia | exact He].
Qed.

(** X3. A run of the client only adds to the trace, and what it adds are
    calls of the configured URL, each with the same prompt, and sleeps of
    the base delay times an attempt number below the maximum: a retry
    sends the prompt again, unchanged, to the same place. *)
Theorem fetchWithRetry_events (svc : Service) (world : World) (prompt : string)
        (fuel : nat) (tr : list Event) :
  exists ext,
    snd (fetchWithRetry fuel svc world prompt 1 tr) = tr ++ ext /\
    (forall u p, In (EvFetch u p) ext -> u = url (config svc) /\ p = prompt) /\
    (forall ms, In (EvSleep ms) ext ->
                exists n, 1 <= n < maxRetries (config svc) /\
                          ms = (retryDelay (config svc) * Z.of_nat n)%Z).
Proof.
  destruct (fetchWithRetry_trace svc world prompt fuel 1 tr) as [ext [E F]].
  exists ext. split; [exact E|]. rewrite Forall_forall in F. split.
  - intros u p Hin. destruct (F _ Hin) as [He|[n [_ He]]]; [|discriminate].
    now injection He as -> ->.
  - intros ms Hin. destruct (F _ Hin) as [He|[n [Hn He]]]; [discriminate|].
    injection He as ->. eauto.
Qed.


(** X4. Without a credential, or with metadata that is not an object, the
    analysis makes no call of the completion API: the trace is left as it
    was, and the result is the fallback of the validation error. The
    error is the missing key whenever no key is configured, whatever the
    metadata, and the invalid metadata when a key is configured. *)
Theorem analyzeRepository_validates_first (fuel : nat) (svc : Service)
        (world : World) (repoInfo : JsValue) (tr : list Event) :
  key_configured svc = false \/ valid_repoInfo repoInfo = false ->
  exists e,
    analyzeRepository fuel svc world repoInfo tr
    = (Returns (generateFallbackResponse e), tr) /\
    (e = MkError "DeepSeek API key not configured" \/
     e = MkError "Invalid repository information") /\
    (key_configured svc = false -> e = MkError "DeepSeek API key not configured") /\
    (key_configured svc = true -> e = MkError "Invalid repository information").
Proof.
  intros H. rewrite analyzeRepository_run.
  destruct (key_configured svc) eqn:K; cbn [negb].
  - destruct H as [H|H]; [discriminate|]. rewrite H. cbn [negb].
    eexists. split; [reflexivity|].
    split; [now right | split; [discriminate | reflexivity]].
  - eexists. split; [reflexivity|].
    split; [now left | split; [reflexivity | discriminate]].
Qed.

Lemma analyzeRepository_validates_first_witness :
  (exists e,
      analyzeRepository 4 service (always (completion scenario_A)) JsNull []
      = (Returns (generateFallbackResponse e), []) /\
      (e = MkError "DeepSeek API key not configured" \/
       e = MkError "Invalid repository information") /\
      (key_configured service = false ->
       e = MkError "DeepSeek API key not configured") /\
      (key_configured service = true ->
       e = MkError "Invalid repository information")) /\
  (exists e,
      analyzeRepository 4 no_credential (always (completion scenario_A)) JsNull []
      = (Returns (generateFallbackResponse e), []) /\
      (e = MkError "DeepSeek API key not configured" \/
       e = MkError "Invalid repository information") /\
      (key_configured no_credential = false ->
       e = MkError "DeepSeek API key not configured") /\
      (key_configured no_credential = true ->
       e = MkError "Invalid repository information")).
Proof.
  split.
  - apply (analyzeRepository_validates_first 4 service
             (always (completion scenario_A)) JsNull []).
    right. reflexivity.
  - apply (analyzeRepository_validates_first 4 no_credential
             (always (completion scenario_A)) JsNull []).
    left. reflexivity.
Defined.

Lemma backoff_trace_calls (u p : string) (d : Z) :
  forall k a u' p',
    In (EvFetch u' p') (backoff_trace u p d a k) -> u' = u /\ p' = p.
Proof.
  induction k as [|k IH]; intros a u' p'; cbn [backoff_trace In].
  - intros [H|[]]. now injection H as -> ->.
  - intros [H|[H|H]]; [now injection H as -> -> | discriminate | exact (IH _ _ _ H)].
Qed.

(** X5. With a credential and a metadata object, when the attempts before
    the [k]-th fail and the [k]-th, within the budget, is answered by
    the text [c], the analysis returns the result built from [c] alone:
    its summary, its wrapped diagram, its recommendations, [c] itself as
    raw analysis, after [k] calls with the prompt of the object. *)
Theorem analyzeRepository_uses_first_answer (svc : Service) (world : World)
        (o : RepoObject) (k : nat) (c : string) :
  key_configured svc = true ->
  1 <= k <= Nat.max 1 (maxRetries (config svc)) ->
  (forall n, 1 <= n < k -> fails svc (world n) = true) ->
  answers svc (world k) c ->
  exists tr,
    analyzeRepository (enough_fuel svc) svc world (JsObject o) []
    = (Returns {| summary := extractTextSummary c;
                  htmlSchema := wrapDiagram (extractHtmlContent c);
                  recommendations := extractRecommendations c;
                  diagramSource := true;
                  rawAnalysis := Some c |}, tr) /\
    fetch_count tr = k /\
    (forall u p, In (EvFetch u p) tr -> p = buildAnalysisPrompt o).
Proof.
  intros Hk Lk Hfail Ha. rewrite analyzeRepository_run, Hk.
  cbn [negb valid_repoInfo prompt_of].
  pose proof (answers_settle _ _ _ Ha) as Hx.
  replace k with (1 + (k - 1)) in Hx, Hfail by lia.
  rewrite (fetchWithRetry_first_success svc world (buildAnalysisPrompt o)
             (analysis_of c) (k - 1) (enough_fuel svc) 1 []);
    try reflexivity; try assumption; try (unfold enough_fuel; lia).
  eexists. split; [reflexivity|]. split.
  - rewrite app_nil_l, backoff_trace_fetches. lia.
  - rewrite app_nil_l. intros u p Hin.
    now destruct (backoff_trace_calls _ _ _ _ _ _ _ Hin).
Qed.

Lemma analyzeRepository_uses_first_answer_witness :
  exists tr,
    analyzeRepository (enough_fuel service) service malformed_once some_repo []
    = (Returns {| summary := "Summary line";
                  htmlSchema := wrapDiagram (Some "<div>X</div>");
                  recommendations := getDefaultRecommendations;
                  diagramSource := true;
                  rawAnalysis := Some scenario_A |}, tr) /\
    fetch_count tr = 2 /\
    (forall u p, In (EvFetch u p) tr ->
                 p = buildAnalysisPrompt
                       (mkRepoObject (Some "GitInspect") None (Some "JavaScript") None)).
Proof.
  apply (analyzeRepository_uses_first_answer service malformed_once
           (mkRepoObject (Some "GitInspect") None (Some "JavaScript") None)
           2 scenario_A).
  - reflexivity.
  - simpl. lia.
  - intros n Hn. assert (n = 1) by lia. subst n. reflexivity.
  - split; [reflexivity|]. split; [discriminate|].
    eexists. eexists. split; reflexivity.
Defined.

(** X6. Every result that the analysis returns, from any trace and with
    any fuel, has a diagram panel that is not the empty string, and its
    [diagramSource] is true exactly when it carries the raw text of a
    completion: the flag tells a completed call from a failed one, not a
    diagram of the model from the fallback panel. *)
Theorem analyzeRepository_result_shape (fuel : nat) (svc : Service)
        (world : World) (repoInfo : JsValue) (tr : list Event) :
  match fst (analyzeRepository fuel svc world repoInfo tr) with
  | Returns r =>
      htmlSchema r <> EmptyString /\
      (diagramSource r = true <-> exists c, rawAnalysis r = Some c) /\
      (diagramSource r = false <->
       recommendations r = getFallbackRecommendations /\ rawAnalysis r = None)
  | Throws _ => False
  | OutOfFuel => True
  end.
Proof.
  pose proof (analyzeRepository_htmlSchema fuel svc world repoInfo tr) as H.
  rewrite analyzeRepository_run in *.
  assert (Fb : forall e,
             htmlSchema (generateFallbackResponse e) <> EmptyString ->
             htmlSchema (generateFallbackResponse e) <> EmptyString /\
             (diagramSource (generateFallbackResponse e) = true <->
              exists c, rawAnalysis (generateFallbackResponse e) = Some c) /\
             (diagramSource (generateFallbackResponse e) = false <->
              recommendations (generateFallbackResponse e)
              = getFallbackRecommendations /\
              rawAnalysis (generateFallbackResponse e) = None)).
  { intros e N. split; [exact N|]. cbn. split; split; try discriminate; auto.
    intros [c Hc]. discriminate. }
  destruct (negb (key_configured svc)); [now apply Fb|].
  destruct (negb (valid_repoInfo repoInfo)); [now apply Fb|].
  destruct (fetchWithRetry fuel svc world (prompt_of repoInfo) 1 tr)
    as [[a|e|] tr']; cbn [fst] in *; [|now apply Fb|exact I].
  split; [exact H|]. cbn. split; split; try discriminate; eauto.
  intros [_ N]. discriminate.
Qed.

End ClientCoverage.

(* ================================================================== *)
(** * More of the extraction *)
(* ================================================================== *)

Module TextCoverage.
Import Str Spec Regex Patterns StrFacts RegexFacts PatternFacts AIService
       Coverage Examples Extraction.
Local Open Scope string_scope.

(** ** Parts of a text *)

Lemma occurs_refl (s : string) : occurs s s.
Proof. exists EmptyString, EmptyString. unfold splits_at. simpl. now rewrite append_nil_r. Qed.

Lemma occurs_app_l (p a b : string) : occurs p a -> occurs p (a ++ b).
Proof.
  intros [pre [post H]]. exists pre, (post ++ b). unfold splits_at in *.
  rewrite H. now rewrite !append_assoc.
Qed.

Lemma occurs_app_r (p a b : string) : occurs p b -> occurs p (a ++ b).
Proof.
  intros [pre [post H]]. exists (a ++ pre), post. unfold splits_at in *.
  rewrite H. now rewrite !append_assoc.
Qed.

Lemma occurs_trans (a b c : string) : occurs a b -> occurs b c -> occurs a c.
Proof.
  intros [p1 [q1 H1]] [p2 [q2 H2]]. unfold splits_at in *. subst b c.
  apply occurs_app_r, occurs_app_l, occurs_app_r, occurs_app_l, occurs_refl.
Qed.

Lemma occurs_drop (n : nat) (s : string) : occurs (drop n s) s.
Proof.
  rewrite <- (take_drop n s) at 2. apply occurs_app_r, occurs_refl.
Qed.

Lemma trimStart_occurs (s : string) : occurs (trimStart s) s.
Proof.
  induction s as [|c s IH]; [apply occurs_refl|]. cbn [trimStart].
  destruct (is_ws c); [|apply occurs_refl].
  change (String c s) with (String c EmptyString ++ s). now apply occurs_app_r.
Qed.

Lemma trimEnd_occurs (s : string) : occurs (trimEnd s) s.
Proof.
  exists EmptyString. unfold splits_at. cbn [append].
  induction s as [|c s [post IH]]; [now exists EmptyString|]. cbn [trimEnd].
  destruct (trimEnd s) as [|a t] eqn:E.
  - destruct (is_ws c).
    + now exists (String c s).
    + exists s. reflexivity.
  - exists post. cbn [append] in *. now rewrite <- IH.
Qed.

Lemma trim_occurs (s : string) : occurs (trim s) s.
Proof.
  unfold trim. eapply occurs_trans; [apply trimEnd_occurs | apply trimStart_occurs].
Qed.

Lemma split_head_prefix (sep : ascii) (s h : string) (t : list string) :
  split sep s = h :: t -> exists post, s = h ++ post.
Proof.
  revert h t. induction s as [|c s IH]; intros h t; cbn [split].
  - intros H. injection H as <- _. now exists EmptyString.
  - destruct (Ascii.eqb c sep).
    + intros H. injection H as <- _. now exists (String c s).
    + destruct (split sep s) as [|h' t'] eqn:E.
      * intros H. injection H as <- _. exists s. reflexivity.
      * intros H. injection H as <- _.
        destruct (IH h' t' eq_refl) as [post Hs].
        exists post. cbn [append]. now rewrite <- Hs.
Qed.

Lemma split_occurs (sep : ascii) (s l : string) :
  In l (split sep s) -> occurs l s.
Proof.
  revert l. induction s as [|c s IH]; intros l; cbn [split].
  - intros [<-|[]]. apply occurs_refl.
  - destruct (Ascii.eqb c sep).
    + intros [<-|H].
      * exists EmptyString, (String c s). reflexivity.
      * change (String c s) with (String c EmptyString ++ s).
        apply occurs_app_r. now apply IH.
    + destruct (split sep s) as [|h t] eqn:E.
      * intros [<-|[]]. exists EmptyString, s. reflexivity.
      * intros [<-|H].
        -- destruct (split_head_prefix _ _ _ _ E) as [post Hs].
           exists EmptyString, post. unfold splits_at. cbn [append].
           now rewrite <- Hs.
        -- change (String c s) with (String c EmptyString ++ s).
           apply occurs_app_r. apply IH. now right.
Qed.

Lemma strip_marker_occurs (r : string) : occurs (strip_marker r) r.
Proof.
  unfold strip_marker.
  destruct (strip_prefix false "- " r) as [r'|] eqn:E; [|apply occurs_refl].
  apply strip_prefix_exact in E. subst r. apply occurs_app_r, occurs_refl.
Qed.

(** ** Trimming twice *)

Lemma trimStart_head (s : string) :
  match trimStart s with
  | String c _ => is_ws c = false
  | EmptyString => True
  end.
Proof.
  induction s as [|c s IH]; [exact I|]. cbn [trimStart].
  destruct (is_ws c) eqn:E; [exact IH | exact E].
Qed.

Lemma trimEnd_cons (c : ascii) (s : string) :
  trimEnd (String c s) =
  match trimEnd s with
  | EmptyString => if is_ws c then EmptyString else String c EmptyString
  | t => String c t
  end.
Proof. reflexivity. Qed.

Lemma trimEnd_idem (s : string) : trimEnd (trimEnd s) = trimEnd s.
Proof.
  induction s as [|c s IH]; [reflexivity|]. rewrite trimEnd_cons.
  destruct (trimEnd s) as [|a t] eqn:E.
  - destruct (is_ws c) eqn:W; [reflexivity|]. cbn [trimEnd]. now rewrite W.
  - rewrite trimEnd_cons, IH. reflexivity.
Qed.

Lemma trimStart_trimEnd (u : string) :
  match u with String c _ => is_ws c = false | EmptyString => True end ->
  trimStart (trimEnd u) = trimEnd u.
Proof.
  destruct u as [|c u]; [reflexivity|]. intros W. cbn [trimEnd].
  destruct (trimEnd u); [rewrite W|]; cbn [trimStart]; now rewrite W.
Qed.

Lemma trim_idem (s : string) : trim (trim s) = trim s.
Proof.
  unfold trim. rewrite (trimStart_trimEnd _ (trimStart_head s)).
  apply trimEnd_idem.
Qed.

Lemma trimEnd_app_nl (s : string) : trimEnd (s ++ nl) = trimEnd s.
Proof.
  induction s as [|c s IH]; [reflexivity|]. cbn [append trimEnd]. now rewrite IH.
Qed.

Lemma trim_between_nl (s : string) : trim (nl ++ s ++ nl) = trim s.
Proof.
  unfold trim. change (nl ++ s ++ nl) with (String LF (s ++ nl)).
  cbn [trimStart is_ws LF].
  induction s as [|c s IH]; [reflexivity|]. cbn [append trimStart].
  destruct (is_ws c); [exact IH|].
  exact (trimEnd_app_nl (String c s)).
Qed.

(** ** What the extraction takes from the text *)

Lemma fenced_block_occurs (opening s inner : string) :
  fenced_block opening s = Some inner -> occurs inner s.
Proof.
  unfold fenced_block.
  destruct (find false opening s) as [[pre rest]|] eqn:F; [|discriminate].
  destruct (find false fence rest) as [[inner' post]|] eqn:G; [|discriminate].
  intros H. injection H as ->.
  rewrite (find_split _ _ _ _ F), (find_split _ _ _ _ G).
  apply occurs_app_r, occurs_app_r, occurs_app_l, occurs_refl.
Qed.

Lemma find_marked_div_shape (s e : string) :
  find_marked_div s = Some e ->
  occurs e s /\ exists mid, e = "<div" ++ mid ++ "</div>".
Proof.
  intros H. apply find_marked_div_some in H.
  destruct H as [pre [rest [Hs [[attrs [body [post [Hr [He _]]]]] _]]]].
  split.
  - rewrite Hs, Hr, He. apply occurs_app_r.
    replace ("<div" ++ attrs ++ ">" ++ body ++ "</div>" ++ post)
      with (("<div" ++ attrs ++ ">" ++ body ++ "</div>") ++ post)
      by (now rewrite !append_assoc).
    apply occurs_app_l, occurs_refl.
  - exists (attrs ++ ">" ++ body). rewrite He. now rewrite !append_assoc.
Qed.

(** X7. The diagram is never made up: whenever a diagram is extracted, it
    is a part of the response, and it is either a text without white space
    around it (the interior of the html block) or a text that starts with
    [<div] and ends with [</div>] (the element). *)
Theorem extractHtmlContent_is_part (content e : string) :
  extractHtmlContent content = Some e ->
  occurs e content /\
  (trim e = e \/ exists mid, e = "<div" ++ mid ++ "</div>").
Proof.
  rewrite extractHtmlContent_refines.
  destruct (fenced_block html_fence content) as [inner|] eqn:F.
  - intros H. injection H as <-. split.
    + eapply occurs_trans; [apply trim_occurs | exact (fenced_block_occurs _ _ _ F)].
    + left. apply trim_idem.
  - intros H. destruct (find_marked_div_shape _ _ H) as [Ho Hm]. auto.
Qed.

Lemma extractHtmlContent_is_part_witness :
  occurs ("<div id=x " ++ marker ++ "><p>A</p></div>") bare_diagram /\
  (trim ("<div id=x " ++ marker ++ "><p>A</p></div>")
   = "<div id=x " ++ marker ++ "><p>A</p></div>" \/
   exists mid, "<div id=x " ++ marker ++ "><p>A</p></div>"
               = "<div" ++ mid ++ "</div>").
Proof.
  apply (extractHtmlContent_is_part bare_diagram). reflexivity.
Defined.

(** X8. The summary is a part of the response or the literal
    [Technical summary], and it is empty only when the response has a
    block tagged text: without such a block the summary is never empty. *)
Theorem extractTextSummary_is_part (content : string) :
  (occurs (extractTextSummary content) content \/
   extractTextSummary content = "Technical summary") /\
  (~ has_fenced_block text_fence content ->
   extractTextSummary content <> EmptyString).
Proof.
  rewrite extractTextSummary_refines.
  destruct (fenced_block text_fence content) as [inner|] eqn:F.
  - split.
    + left. eapply occurs_trans;
        [apply trim_occurs | exact (fenced_block_occurs _ _ _ F)].
    + intros H. apply fenced_block_none in H. congruence.
  - assert (O : occurs (first_line content) content).
    { unfold first_line. destruct (find false nl content) as [[line post]|] eqn:L;
        [|apply occurs_refl].
      rewrite (find_split _ _ _ _ L). apply occurs_app_l, occurs_refl. }
    destruct (first_line content) as [|c l]; cbn [truthy].
    + split; [now right | discriminate].
    + split; [now left | discriminate].
Qed.

Lemma extractTextSummary_is_part_witness :
  extractTextSummary ("First line" ++ nl ++ "second") <> EmptyString.
Proof.
  apply (proj2 (extractTextSummary_is_part ("First line" ++ nl ++ "second"))).
  apply fenced_block_none. reflexivity.
Defined.

Lemma in_firstn {A : Type} (n : nat) (l : list A) (x : A) :
  In x (firstn n l) -> In x l.
Proof.
  intros H. rewrite <- (firstn_skipn n l). apply in_or_app. now left.
Qed.

Lemma heading_run_some (content run : string) :
  heading_run content = Some run -> has_heading content /\ occurs run content.
Proof.
  unfold heading_run.
  destruct (find true heading_word content) as [[pre after]|] eqn:F;
    [|discriminate].
  destruct (find_split_nocase _ _ _ _ F) as [h [Hs Hh]]. cbv zeta. intros H.
  split; [exists pre, h, after; auto|].
  assert (B : occurs (drop (span not_terminator after) after) content).
  { rewrite Hs. apply occurs_app_r, occurs_app_r, occurs_drop. }
  destruct (find false blank_line (drop (span not_terminator after) after))
    as [[r post]|] eqn:G; injection H as <-; [|exact B].
  eapply occurs_trans; [|exact B].
  rewrite (find_split _ _ _ _ G). apply occurs_app_l, occurs_refl.
Qed.

(** X9. Every recommendation in the list has no white space around it;
    with the heading in the response it is a part of the response, without
    the heading it is one of the three defaults. No recommendation is
    made up from anything else. *)
Theorem extractRecommendations_entries (content r : string) :
  In r (extractRecommendations content) ->
  trim r = r /\
  ((has_heading content /\ occurs r content) \/
   (~ has_heading content /\ In r getDefaultRecommendations)).
Proof.
  rewrite extractRecommendations_refines.
  destruct (heading_run content) as [run|] eqn:H.
  - destruct (heading_run_some _ _ H) as [Hh Ho].
    unfold recommendations_of_run. intros Hin.
    apply in_firstn, in_map_iff in Hin. destruct Hin as [l [<- Hl]].
    apply filter_In in Hl. destruct Hl as [Hl _].
    split; [apply trim_idem|]. left. split; [exact Hh|].
    eapply occurs_trans; [apply trim_occurs|].
    eapply occurs_trans; [apply strip_marker_occurs|].
    eapply occurs_trans; [exact (split_occurs _ _ _ Hl) | exact Ho].
  - intros Hin. split.
    + destruct Hin as [<-|[<-|[<-|[]]]]; reflexivity.
    + right. split; [now apply heading_run_none_inv | exact Hin].
Qed.

Lemma extractRecommendations_entries_witness :
  trim "Write docs" = "Write docs" /\
  ((has_heading french_report /\ occurs "Write docs" french_report) \/
   (~ has_heading french_report /\ In "Write docs" getDefaultRecommendations)).
Proof.
  apply (extractRecommendations_entries french_report "Write docs").
  right. left. reflexivity.
Defined.

(** ** A response in the required format *)

Lemma find_head (ic : bool) (p s post : string) :
  strip_prefix ic p s = Some post -> find ic p s = Some (EmptyString, post).
Proof. intros H. destruct s; cbn [find]; now rewrite H. Qed.

Lemma find_skip (ic : bool) (p : string) (c : ascii) (s : string) :
  strip_prefix ic p (String c s) = None ->
  find ic p (String c s) =
  match find ic p s with
  | Some (a, b) => Some (String c a, b)
  | None => None
  end.
Proof. intros H. cbn [find]. now rewrite H. Qed.

(** A fence that is not at the head of [x] is not at the head of [x]
    followed by a line feed either, and neither is an opening. *)
Lemma no_fence_before_nl (p' x r : string) :
  strip_prefix false fence x = None ->
  strip_prefix false (fence ++ p') (x ++ String LF r) = None.
Proof.
  unfold fence.
  destruct x as [|c1 [|c2 [|c3 x]]]; cbn [append strip_prefix]; unfold char_eq.
  - reflexivity.
  - intros _. destruct (Ascii.eqb "`" c1); reflexivity.
  - intros _. destruct (Ascii.eqb "`" c1); [|reflexivity].
    destruct (Ascii.eqb "`" c2); reflexivity.
  - destruct (Ascii.eqb "`" c1); [|reflexivity].
    destruct (Ascii.eqb "`" c2); [|reflexivity].
    destruct (Ascii.eqb "`" c3); [discriminate | reflexivity].
Qed.

(** A text without fence, then a line feed: a fence or an opening is
    found only after them. *)
Lemma find_after_line (p' d r : string) :
  find false fence d = None ->
  find false (fence ++ p') (d ++ String LF r) =
  match find false (fence ++ p') r with
  | Some (a, b) => Some (d ++ String LF a, b)
  | None => None
  end.
Proof.
  induction d as [|c d IH]; intros H.
  - cbn [append]. apply find_skip.
    exact (no_fence_before_nl p' EmptyString r eq_refl).
  - cbn [find] in H.
    destruct (strip_prefix false fence (String c d)) eqn:S; [discriminate|].
    destruct (find false fence d) as [[a b]|] eqn:F; [discriminate|].
    cbn [append]. rewrite find_skip.
    + rewrite (IH eq_refl).
      destruct (find false (fence ++ p') r) as [[a b]|]; reflexivity.
    + exact (no_fence_before_nl p' (String c d) r S).
Qed.

Lemma formatted_response_html (d t : string) :
  find false fence d = None ->
  fenced_block html_fence (formatted_response d t) = Some (nl ++ d ++ nl).
Proof.
  intros Hd. unfold fenced_block, formatted_response.
  rewrite (find_head false html_fence _ _ (strip_prefix_app false html_fence _)).
  change (nl ++ d ++ nl ++ "```" ++ nl ++ nl ++ "```text" ++ nl ++ t ++ nl ++ "```")
    with (String LF (d ++ String LF
            (fence ++ nl ++ nl ++ "```text" ++ nl ++ t ++ nl ++ "```"))).
  rewrite (find_skip false fence LF _ eq_refl).
  rewrite (find_after_line EmptyString d _ Hd).
  rewrite (find_head false (fence ++ EmptyString) _ _
             (strip_prefix_app false fence _)).
  reflexivity.
Qed.

Lemma formatted_response_text (d t : string) :
  find false fence d = None -> find false fence t = None ->
  fenced_block text_fence (formatted_response d t) = Some (nl ++ t ++ nl).
Proof.
  intros Hd Ht. unfold fenced_block, formatted_response.
  change ("```html" ++ nl ++ d ++ nl ++ "```" ++ nl ++ nl ++ "```text"
          ++ nl ++ t ++ nl ++ "```")
    with ("```html" ++ String LF (d ++ String LF
            ("```" ++ nl ++ nl ++ text_fence
             ++ String LF (t ++ String LF fence)))).
  cbn [append nl]. do 8 (rewrite find_skip by reflexivity).
  rewrite (find_after_line "text" d _ Hd).
  do 5 (rewrite find_skip by reflexivity).
  rewrite (find_head false (fence ++ "text") _ _
             (strip_prefix_app false text_fence _)).
  rewrite find_skip by reflexivity.
  rewrite (find_after_line EmptyString t _ Ht).
  rewrite (find_head false (fence ++ EmptyString) fence EmptyString eq_refl).
  reflexivity.
Qed.

(** X10. The extraction reads back a response written in the required
    format: for every diagram and every summary in which no fence occurs,
    the diagram extracted from the formatted response is the diagram,
    trimmed, and the summary is the summary, trimmed. The format that the
    prompt prints is this format, around its two placeholders. *)
Theorem formatted_response_round_trip (d t : string) :
  ~ occurs fence d -> ~ occurs fence t ->
  extractHtmlContent (formatted_response d t) = Some (trim d) /\
  extractTextSummary (formatted_response d t) = trim t /\
  getResponseFormat = formatted_response placeholder_diagram placeholder_summary.
Proof.
  intros Hd Ht. apply not_occurs_find in Hd, Ht.
  rewrite extractHtmlContent_refines, extractTextSummary_refines.
  rewrite (formatted_response_html d t Hd), (formatted_response_text d t Hd Ht).
  rewrite !trim_between_nl. repeat split.
Qed.

Lemma formatted_response_round_trip_witness :
  extractHtmlContent (formatted_response placeholder_diagram placeholder_summary)
  = Some (trim placeholder_diagram) /\
  extractTextSummary (formatted_response placeholder_diagram placeholder_summary)
  = trim placeholder_summary /\
  getResponseFormat = formatted_response placeholder_diagram placeholder_summary.
Proof.
  apply (formatted_response_round_trip placeholder_diagram placeholder_summary);
    apply not_occurs_find; reflexivity.
Defined.

End TextCoverage.

(* ================================================================== *)
(** * More of the metadata client and the controller *)
(* ================================================================== *)

Module PipelineCoverage.
Import Str Spec Effects AIService ClientSpec Coverage Examples Client
       ClientCoverage TextCoverage.
Local Open Scope string_scope.

Lemma handleGitHubError_cases (status : option Z) :
  (status = Some 404%Z /\
   GitHubService.handleGitHubError status = MkError "Dépôt non trouvé") \/
  (status = Some 403%Z /\
   GitHubService.handleGitHubError status
   = MkError "Limite de requêtes GitHub atteinte") \/
  (status <> Some 404%Z /\ status <> Some 403%Z /\
   GitHubService.handleGitHubError status
   = MkError "Erreur de communication avec GitHub").
Proof.
  destruct status as [z|];
    [|right; right; repeat split; discriminate].
  destruct (Z.eq_dec z 404) as [->|N1]; [left; auto|].
  destruct (Z.eq_dec z 403) as [->|N2]; [right; left; auto|].
  right. right. split; [congruence|]. split; [congruence|].
  unfold GitHubService.handleGitHubError.
  destruct z as [|p|p]; try reflexivity.
  do 9 (try (destruct p as [p|p|]; try reflexivity)); congruence.
Qed.

(** X11. The metadata client ends in one of four ways, never with another
    error: the normalised repository, when the upstream answers with a
    repository that has an owner; [Dépôt non trouvé] exactly when the
    upstream answers 404; [Limite de requêtes GitHub atteinte] exactly
    when it answers 403; [Erreur de communication avec GitHub] for every
    other failure, a repository without owner included. *)
Theorem getRepoInfo_outcomes (toLocaleDateString : string -> string)
        (github : string -> GitHubService.AxiosOutcome) (repoPath : string) :
  let answer := github ("https://api.github.com/repos/" ++ repoPath) in
  match GitHubService.getRepoInfo toLocaleDateString github repoPath with
  | Returns r =>
      exists data o,
        answer = GitHubService.AxiosData data /\
        GitHubService.d_owner data = Some o /\
        GitHubService.formatRepoData toLocaleDateString data = Returns r
  | Throws e =>
      In e github_errors /\
      (e = MkError "Dépôt non trouvé"
       <-> answer = GitHubService.AxiosError (Some 404%Z)) /\
      (e = MkError "Limite de requêtes GitHub atteinte"
       <-> answer = GitHubService.AxiosError (Some 403%Z)) /\
      (forall data, answer = GitHubService.AxiosData data ->
                    GitHubService.d_owner data = None /\
                    e = MkError "Erreur de communication avec GitHub")
  | OutOfFuel => False
  end.
Proof.
  cbv zeta. unfold GitHubService.getRepoInfo.
  destruct (github ("https://api.github.com/repos/" ++ repoPath))
    as [data|status].
  - unfold GitHubService.formatRepoData.
    destruct (GitHubService.d_owner data) as [o|] eqn:O.
    + exists data, o. rewrite O. auto.
    + cbn [GitHubService.handleGitHubError]. split; [cbn; auto|].
      split; [split; discriminate|]. split; [split; discriminate|].
      intros data' H. injection H as <-. auto.
  - destruct (handleGitHubError_cases status) as [[-> ->]|[[-> ->]|[N1 [N2 ->]]]].
    + split; [cbn; auto|]. split; [split; reflexivity|].
      split; [split; discriminate|]. intros data H. discriminate.
    + split; [cbn; auto|]. split; [split; discriminate|].
      split; [split; reflexivity|]. intros data H. discriminate.
    + split; [cbn; auto|]. split; [split; [discriminate | congruence]|].
      split; [split; [discriminate | congruence]|]. intros data H. discriminate.
Qed.

Lemma getRepoInfo_total (toLocaleDateString : string -> string)
      (github : string -> GitHubService.AxiosOutcome) (repoPath : string) :
  GitHubService.getRepoInfo toLocaleDateString github repoPath <> OutOfFuel.
Proof.
  unfold GitHubService.getRepoInfo, GitHubService.formatRepoData.
  destruct (github ("https://api.github.com/repos/" ++ repoPath)) as [data|status];
    [|discriminate].
  destruct (GitHubService.d_owner data); discriminate.
Qed.

Lemma extractRecommendations_length (content : string) :
  List.length (extractRecommendations content) <= 3.
Proof.
  unfold extractRecommendations.
  destruct (Regex.str_match true recsRegex content); [|simpl; lia].
  unfold slice0. rewrite length_firstn. lia.
Qed.

(** With fuel for its attempts, an analysis returns a result, whose panel
    is not empty and whose recommendations are at most three. *)
Lemma analyzeRepository_returns (svc : Service) (world : World)
      (repoInfo : JsValue) (tr : list Event) :
  exists a tr',
    analyzeRepository (enough_fuel svc) svc world repoInfo tr = (Returns a, tr') /\
    htmlSchema a <> EmptyString /\
    List.length (recommendations a) <= 3.
Proof.
  rewrite analyzeRepository_run.
  destruct (negb (key_configured svc)).
  { eexists. eexists. split; [reflexivity|].
    split; [apply generateFallbackDiagram_nonempty | simpl; lia]. }
  destruct (negb (valid_repoInfo repoInfo)).
  { eexists. eexists. split; [reflexivity|].
    split; [apply generateFallbackDiagram_nonempty | simpl; lia]. }
  assert (T : fst (fetchWithRetry (enough_fuel svc) svc world
                     (prompt_of repoInfo) 1 tr) <> OutOfFuel).
  { apply fetchWithRetry_total. unfold enough_fuel. lia. }
  destruct (fetchWithRetry (enough_fuel svc) svc world (prompt_of repoInfo) 1 tr)
    as [[a|e|] tr']; cbn [fst] in T; [| |congruence].
  - eexists. eexists. split; [reflexivity|].
    split; [apply wrapDiagram_nonempty | apply extractRecommendations_length].
  - eexists. eexists. split; [reflexivity|].
    split; [apply generateFallbackDiagram_nonempty | simpl; lia].
Qed.

(** X12. The controller always renders a page. When the metadata client
    throws, no completion is requested and the page is the error page of
    the controller, with the message of the error in its panel. When the
    metadata client returns, the page carries the result of the analysis
    as it is: the guard on an empty [htmlSchema] never replaces the panel,
    since the panel of a result is never empty. *)
Theorem inspectRepository_renders (toLocaleDateString : string -> string)
        (svc : Service) (world : World)
        (github : string -> GitHubService.AxiosOutcome)
        (owner repo : string) (tr : list Event) :
  let run := RepoController.inspectRepository toLocaleDateString
               (enough_fuel svc) svc world github owner repo tr in
  match GitHubService.getRepoInfo toLocaleDateString github (owner ++ "/" ++ repo) with
  | Throws e =>
      run =
      (Returns
         {| RepoController.title := "Erreur d'analyse";
            RepoController.repo_name := "Erreur";
            RepoController.analysis :=
              {| RepoController.v_summary := "Une erreur est survenue";
                 RepoController.v_htmlSchema := generateFallbackDiagram (message e);
                 RepoController.v_recommendations := controller_recommendations;
                 RepoController.v_diagramSource := None;
                 RepoController.v_rawAnalysis := None |} |}, tr)
  | Returns r =>
      exists a tr',
        analyzeRepository (enough_fuel svc) svc world
          (JsObject (RepoController.as_object r)) tr = (Returns a, tr') /\
        htmlSchema a <> EmptyString /\
        List.length (recommendations a) <= 3 /\
        run =
        (Returns
           {| RepoController.title := "GitInspect - " ++ GitHubService.name r;
              RepoController.repo_name := GitHubService.name r;
              RepoController.analysis :=
                {| RepoController.v_summary := summary a;
                   RepoController.v_htmlSchema := htmlSchema a;
                   RepoController.v_recommendations := recommendations a;
                   RepoController.v_diagramSource := Some (diagramSource a);
                   RepoController.v_rawAnalysis := rawAnalysis a |} |}, tr')
  | OutOfFuel => False
  end.
Proof.
  cbv zeta.
  pose proof (getRepoInfo_total toLocaleDateString github (owner ++ "/" ++ repo)) as T.
  unfold RepoController.inspectRepository, try_catch, bind, lift.
  destruct (GitHubService.getRepoInfo toLocaleDateString github (owner ++ "/" ++ repo))
    as [r|e|]; [|reflexivity|congruence].
  destruct (analyzeRepository_returns svc world
              (JsObject (RepoController.as_object r)) tr) as [a [tr' [E [N L]]]].
  exists a, tr'. rewrite E. split; [reflexivity|]. split; [exact N|].
  split; [exact L|]. unfold ret.
  destruct (htmlSchema a) eqn:H; [congruence | reflexivity].
Qed.


Lemma analyzeRepository_calls (fuel : nat) (svc : Service) (world : World)
      (o : RepoObject) (u p : string) :
  In (EvFetch u p) (snd (analyzeRepository fuel svc world (JsObject o) [])) ->
  p = buildAnalysisPrompt o.
Proof.
  rewrite analyzeRepository_run.
  destruct (negb (key_configured svc)); [intros []|].
  cbn [valid_repoInfo negb prompt_of].
  destruct (fetchWithRetry_trace svc world (buildAnalysisPrompt o) fuel 1 [])
    as [ext [E F]].
  destruct (fetchWithRetry fuel svc world (buildAnalysisPrompt o) 1 [])
    as [[a|e|] tr']; cbn [snd app] in *; subst tr'; intros Hin;
    rewrite Forall_forall in F;
    (destruct (F _ Hin) as [He|[n [_ He]]]; [now injection He | discriminate]).
Qed.

Lemma ends_with_app (a b u : string) :
  (exists h, b = h ++ u) -> exists h, a ++ b = h ++ u.
Proof.
  intros [h ->]. exists (a ++ h). now rewrite StrFacts.append_assoc.
Qed.

(** X13. The prompt never carries the address of the repository. The
    metadata client stores the address under [url], the prompt reads
    [html_url]: for every repository that the upstream returns, every
    call of the completion API made for it has the prompt of the
    normalised metadata, whose metadata block ends with the line
    [URL: Non disponible], whatever the address is. *)
Theorem inspectRepository_prompt_url (toLocaleDateString : string -> string)
        (fuel : nat) (svc : Service) (world : World)
        (data : GitHubService.RepoData) (o : GitHubService.Owner)
        (owner repo : string) :
  GitHubService.d_owner data = Some o ->
  exists r,
    GitHubService.formatRepoData toLocaleDateString data = Returns r /\
    GitHubService.url r = GitHubService.d_html_url data /\
    (exists head,
        formatRepoMetadata (RepoController.as_object r)
        = head ++ "URL: Non disponible") /\
    forall u p,
      In (EvFetch u p)
         (snd (RepoController.inspectRepository toLocaleDateString fuel svc world
                 (upstream_of data) owner repo [])) ->
      p = buildAnalysisPrompt (RepoController.as_object r).
Proof.
  intros Ho.
  unfold RepoController.inspectRepository, try_catch, bind, lift,
    GitHubService.getRepoInfo, upstream_of, GitHubService.formatRepoData.
  rewrite Ho. eexists. split; [reflexivity|]. split; [reflexivity|]. split.
  - unfold formatRepoMetadata.
    cbn [RepoController.as_object html_url or_default].
    do 6 apply ends_with_app. exists nl. reflexivity.
  - intros u p.
    match goal with
    | |- context [analyzeRepository fuel svc world (JsObject ?x) []] =>
        pose proof (analyzeRepository_calls fuel svc world x u p) as C;
        destruct (analyzeRepository fuel svc world (JsObject x) [])
          as [[a|e|] tr']
    end; cbn [snd ret] in *; exact C.
Qed.

Lemma inspectRepository_prompt_url_witness :
  exists r,
    GitHubService.formatRepoData plain_date upstream_repo = Returns r /\
    GitHubService.url r = "https://github.com/devnetworking/GitInspect" /\
    (exists head,
        formatRepoMetadata (RepoController.as_object r)
        = head ++ "URL: Non disponible") /\
    forall u p,
      In (EvFetch u p)
         (snd (RepoController.inspectRepository plain_date 4 service
                 (always (completion scenario_A))
                 (upstream_of upstream_repo) "devnetworking" "GitInspect" [])) ->
      p = buildAnalysisPrompt (RepoController.as_object r).
Proof.
  apply (inspectRepository_prompt_url plain_date 4 service
           (always (completion scenario_A)) upstream_repo
           (GitHubService.mkOwner "devnetworking")).
  reflexivity.
Defined.

End PipelineCoverage.
